(** * BEP-Model: channel properties and tidal constituents

    A shallow embedding of [model/tide/tidefrequency.py] and
    [model/channel_properties/channel_properties.py].

    The formulas are embedded twice.

    - [Exact] reads every Python [float] as a real number.  It carries the
      statements that are about the formulas themselves (values of the
      derived properties, the round trip through the complex amplitude,
      the tidal height).
    - [Binary64] reads a Python [float] as an IEEE-754 binary64 value
      ([spec_float] with precision 53 and maximal exponent 1024).  It
      carries the statements that depend on what the machine arithmetic
      does: the range check of the constructor, exceptions, and the
      special values (infinities and NaN).

    Exceptions are values of [exn]; a computation that can raise returns
    a [result]. *)

From Stdlib Require Import Reals Lra Lia List ZArith Bool.
From Stdlib Require Import SpecFloat.
Import ListNotations.

(** ** Python exceptions and fallible computations *)

Inductive exn : Set :=
  | ValueError
  | ZeroDivisionError
  | OverflowError
  | TypeError.

Inductive result (A : Type) : Type :=
  | Ok (a : A)
  | Raise (e : exn).

Arguments Ok {A} a.
Arguments Raise {A} e.

Definition bind {A B : Type} (c : result A) (k : A -> result B) : result B :=
  match c with
  | Ok a => k a
  | Raise e => Raise e
  end.

Notation "x <- c ;; k" := (bind c (fun x => k))
  (at level 61, c at next level, right associativity).

Definition returns {A : Type} (c : result A) : Prop := exists a, c = Ok a.

(** ** NumPy values: a scalar or a one-dimensional array *)

Inductive ndval (A : Type) : Type :=
  | Scalar (a : A)
  | Array (l : list A).

Arguments Scalar {A} a.
Arguments Array {A} l.

(** A unary ufunc, and a binary ufunc one of whose operands is a scalar,
    act elementwise and keep the shape. *)
Definition np_map {A B : Type} (f : A -> B) (v : ndval A) : ndval B :=
  match v with
  | Scalar a => Scalar (f a)
  | Array l => Array (map f l)
  end.

(** * Exact arithmetic *)

Module Exact.

Local Open Scope R_scope.

(** ** Complex numbers, as Python's [complex] *)

Record complex : Type := mkC { Re : R; Im : R }.

(** A real operand of a complex operation is promoted first. *)
Definition RtoC (x : R) : complex := mkC x 0.

(** The literal [1j]. *)
Definition Ci : complex := mkC 0 1.

Definition Cadd (a b : complex) : complex :=
  mkC (Re a + Re b) (Im a + Im b).

Definition Cmul (a b : complex) : complex :=
  mkC (Re a * Re b - Im a * Im b) (Re a * Im b + Im a * Re b).

(** [np.abs] of a complex number. *)
Definition Cabs (z : complex) : R := sqrt (Re z * Re z + Im z * Im z).

(** [np.exp] of a complex number. *)
Definition Cexp (z : complex) : complex :=
  mkC (exp (Re z) * cos (Im z)) (exp (Re z) * sin (Im z)).

(** [np.sign] of a real number: -1, 0 or 1. *)
Definition np_sign (x : R) : R :=
  if Rlt_dec x 0 then -1 else if Rlt_dec 0 x then 1 else 0.

(** Python's [/] on floats raises when the divisor is zero. *)
Definition py_truediv (x y : R) : result R :=
  if Req_dec_T y 0 then Raise ZeroDivisionError else Ok (x / y).

(** [np.arctan] is a unary ufunc, [np.arctan(x, /, out=None, ...)]: a
    second positional argument is taken as the output operand, and NumPy
    accepts only an ndarray there.  The operands modelled here are
    scalars; a scalar in the output position is rejected with
    [TypeError] (return arrays must be of ArrayType). *)
Definition np_arctan (x : R) (out : option R) : result R :=
  match out with
  | None => Ok (atan x)
  | Some _ => Raise TypeError
  end.

(** ** [TideFrequency] *)

Record TideFrequency : Type := mkTideFrequency {
  period_h : R;   (* hours *)
  amplitude : R;  (* meters *)
  phase : R       (* radians *)
}.

Definition complex_amplitude (self : TideFrequency) : complex :=
  Cadd (RtoC (amplitude self * cos (phase self)))
       (Cmul (Cmul Ci (RtoC (amplitude self))) (RtoC (sin (phase self)))).

Definition angular_frequency (self : TideFrequency) : result R :=
  if Req_dec_T (period_h self) 0 then Ok 0
  else py_truediv (2 * PI) (period_h self * 60 * 60).

Definition frequency (self : TideFrequency) : result R :=
  if Req_dec_T (period_h self) 0 then Ok 0
  else py_truediv 1 (period_h self * 60 * 60).

(** The amplitude that [from_complex_amplitude] derives from its
    argument (first statement of its body). *)
Definition from_complex_amplitude_amplitude (complex_amplitude : complex) : R :=
  np_sign (Re complex_amplitude) * Cabs complex_amplitude.

Definition from_complex_amplitude (complex_amplitude : complex) (period : R)
  : result TideFrequency :=
  let amplitude := from_complex_amplitude_amplitude complex_amplitude in
  phase <- np_arctan (Im complex_amplitude) (Some (Re complex_amplitude)) ;;
  Ok (mkTideFrequency period amplitude phase).

(** [height_from_tide]: [t] is a scalar or an array; every NumPy operation
    in the body is elementwise in [t]. *)
Definition height_from_tide (tide : TideFrequency) (t : ndval R)
  : result (ndval R) :=
  let z := complex_amplitude tide in
  omega <- angular_frequency tide ;;
  Ok (np_map Re
       (np_map (Cmul z)
         (np_map Cexp
           (np_map (fun x => Cmul (Cmul Ci (RtoC omega)) (RtoC x)) t)))).

(** The chain of operations of [height_from_tide] at a single time. *)
Definition height_at (z : complex) (omega t : R) : R :=
  Re (Cmul z (Cexp (Cmul (Cmul Ci (RtoC omega)) (RtoC t)))).

(** ** [TideFrequency] instances with their [cached_property] slots

    [@dataclass] generates [__eq__], which compares the tuples of declared
    fields.  A [cached_property] stores its value in the instance
    dictionary under its own name on first access and returns the stored
    value afterwards; nothing is stored when the body raises. *)

Record TideFrequency_instance : Type := mkInstance {
  fields : TideFrequency;
  dict_complex_amplitude : option complex;
  dict_angular_frequency : option R;
  dict_frequency : option R
}.

(** [TideFrequency(period_h, amplitude, phase)]: a fresh instance. *)
Definition TideFrequency__init__ (period_h amplitude phase : R)
  : TideFrequency_instance :=
  mkInstance (mkTideFrequency period_h amplitude phase) None None None.

Definition get_complex_amplitude (o : TideFrequency_instance)
  : complex * TideFrequency_instance :=
  match dict_complex_amplitude o with
  | Some v => (v, o)
  | None =>
      let v := complex_amplitude (fields o) in
      (v, mkInstance (fields o) (Some v)
            (dict_angular_frequency o) (dict_frequency o))
  end.

Definition get_angular_frequency (o : TideFrequency_instance)
  : result R * TideFrequency_instance :=
  match dict_angular_frequency o with
  | Some v => (Ok v, o)
  | None =>
      match angular_frequency (fields o) with
      | Ok v => (Ok v, mkInstance (fields o) (dict_complex_amplitude o)
                         (Some v) (dict_frequency o))
      | Raise e => (Raise e, o)
      end
  end.

Definition get_frequency (o : TideFrequency_instance)
  : result R * TideFrequency_instance :=
  match dict_frequency o with
  | Some v => (Ok v, o)
  | None =>
      match frequency (fields o) with
      | Ok v => (Ok v, mkInstance (fields o) (dict_complex_amplitude o)
                         (dict_angular_frequency o) (Some v))
      | Raise e => (Raise e, o)
      end
  end.

Inductive cached_name : Set :=
  | name_complex_amplitude
  | name_angular_frequency
  | name_frequency.

(** The instance after reading one cached property. *)
Definition access (o : TideFrequency_instance) (n : cached_name)
  : TideFrequency_instance :=
  match n with
  | name_complex_amplitude => snd (get_complex_amplitude o)
  | name_angular_frequency => snd (get_angular_frequency o)
  | name_frequency => snd (get_frequency o)
  end.

Definition Reqb (x y : R) : bool := if Req_dec_T x y then true else false.

(** The generated [__eq__] of two [TideFrequency] instances. *)
Definition TideFrequency__eq__ (self other : TideFrequency_instance) : bool :=
  Reqb (period_h (fields self)) (period_h (fields other))
  && Reqb (amplitude (fields self)) (amplitude (fields other))
  && Reqb (phase (fields self)) (phase (fields other)).

(** ** [ChannelProperties] *)

Definition g : R := 9.81.

Record ChannelProperties : Type := mkChannelProperties {
  width : R;
  height : R;
  length : R;
  tidal_averaged_flow : R;
  drag_coefficient : R;
  tidal_velocity_amplitude : R;
  diffusion_prefactor : R
}.

Definition Rltb (x y : R) : bool := if Rlt_dec x y then true else false.

(** [diffusion_prefactor] is [None] when the caller leaves the default. *)
Definition ChannelProperties__init__
    (width height length tidal_averaged_flow drag_coefficient
     tidal_velocity_amplitude : R) (diffusion_prefactor : option R)
  : result ChannelProperties :=
  let diffusion_prefactor :=
    match diffusion_prefactor with Some d => d | None => 0.0125 end in
  if Rltb diffusion_prefactor 0.005 || Rltb 0.020 diffusion_prefactor
  then Raise ValueError
  else Ok (mkChannelProperties width height length tidal_averaged_flow
             drag_coefficient tidal_velocity_amplitude diffusion_prefactor).

(** [self] is the value of a successful construction. *)
Definition constructed (self : ChannelProperties) : Prop :=
  exists (w h l q cd U : R) (dp : option R),
    ChannelProperties__init__ w h l q cd U dp = Ok self.

(** [np.sqrt(g * self.height)].  [sqrt] is the real square root; NumPy
    returns NaN below zero, which [Binary64] covers. *)
Definition frictionless_wave_velocity (self : ChannelProperties) : R :=
  sqrt (g * height self).

(** [friction_factor]: both quotients are between Python floats. *)
Definition friction_factor (self : ChannelProperties) : result R :=
  q <- py_truediv (drag_coefficient self) (height self) ;;
  r <- py_truediv (8 * tidal_velocity_amplitude self) (3 * PI) ;;
  Ok (q * r).

(** [effective_diffusion_coefficient], for a non-negative drag coefficient
    and a non-zero divisor, where NumPy's square root and quotient are the
    real ones; [Binary64] covers the rest. *)
Definition effective_diffusion_coefficient (self : ChannelProperties) : R :=
  diffusion_prefactor self
  * ((width self * width self) * tidal_velocity_amplitude self)
  / (sqrt (drag_coefficient self) * height self).

(** ** The cache of an instance agrees with the property bodies *)

Definition coherent (o : TideFrequency_instance) : Prop :=
  (forall v, dict_complex_amplitude o = Some v ->
             v = complex_amplitude (fields o)) /\
  (forall v, dict_angular_frequency o = Some v ->
             angular_frequency (fields o) = Ok v) /\
  (forall v, dict_frequency o = Some v -> frequency (fields o) = Ok v).

(** ** [from_complex_amplitude] on a one-dimensional complex array

    [np.real] and [np.imag] of a complex ndarray are views of it.  With an
    ndarray in the output position [np.arctan] writes its result there and
    returns that array: the real parts of the argument are overwritten.
    The operands of a ufunc must agree in shape. *)

Definition np_arctan_into (x out : list R) : result (list R) :=
  if Nat.eqb (List.length x) (List.length out)
  then Ok (map atan x)
  else Raise ValueError.

(** The elementwise product of two arrays. *)
Fixpoint np_multiply (x y : list R) : list R :=
  match x, y with
  | a :: x', b :: y' => a * b :: np_multiply x' y'
  | _, _ => []
  end.

(** A [TideFrequency] whose amplitude and phase fields hold arrays. *)
Record TideFrequency_ndarray : Type := mkTideFrequency_ndarray {
  nd_period_h : R;
  nd_amplitude : list R;
  nd_phase : list R
}.

(** The result, and the contents of the argument array after the call. *)
Definition from_complex_amplitude_ndarray
    (complex_amplitude : list complex) (period : R)
  : result (TideFrequency_ndarray * list complex) :=
  let amplitude :=
    np_multiply (map np_sign (map Re complex_amplitude))
                (map Cabs complex_amplitude) in
  phase <- np_arctan_into (map Im complex_amplitude)
                          (map Re complex_amplitude) ;;
  Ok (mkTideFrequency_ndarray period amplitude phase,
      map (fun rz => mkC (fst rz) (Im (snd rz)))
          (combine phase complex_amplitude)).

End Exact.

(** * Binary64 arithmetic *)

Module Binary64.

Local Open Scope Z_scope.

Definition prec : Z := 53.
Definition emax : Z := 1024.

Definition float : Set := spec_float.

Definition mul : float -> float -> float := SFmul prec emax.
Definition div : float -> float -> float := SFdiv prec emax.
Definition sqrt : float -> float := SFsqrt prec emax.
Definition eqb : float -> float -> bool := SFeqb.
Definition ltb : float -> float -> bool := SFltb.
Definition leb : float -> float -> bool := SFleb.

(** The float of a Python [int] (exact below 2^53). *)
Definition of_Z (n : Z) : float := binary_normalize prec emax n 0 false.

(** The float literal that reads as the decimal fraction [n / d]: the
    correctly rounded quotient of two exactly represented integers. *)
Definition decimal (n d : Z) : float := div (of_Z n) (of_Z d).

Definition is_zero (x : float) : bool :=
  match x with S754_zero _ => true | _ => false end.

Definition is_nan (x : float) : bool :=
  match x with S754_nan => true | _ => false end.

Definition is_infinite (x : float) : bool :=
  match x with S754_infinity _ => true | _ => false end.

Definition is_finite (x : float) : bool :=
  match x with S754_zero _ | S754_finite _ _ _ => true | _ => false end.

Definition zero_or_nan (x : float) : bool := is_zero x || is_nan x.

(** A well-formed binary64 value. *)
Definition valid (x : float) : bool := valid_binary prec emax x.

(** ** Python [float] operations *)

Definition py_mul (x y : float) : float := mul x y.

(** [x / y] on Python floats raises when [y == 0]. *)
Definition py_truediv (x y : float) : result float :=
  if is_zero y then Raise ZeroDivisionError else Ok (div x y).

(** [x ** 2] on a Python float ([float_pow] with exponent 2.0): NaN,
    infinities and zeros are answered directly; otherwise the C library
    computes the power of the absolute value, taken here as the correctly
    rounded square, and an infinite result raises [OverflowError]. *)
Definition py_pow2 (x : float) : result float :=
  match x with
  | S754_nan => Ok S754_nan
  | S754_infinity _ => Ok (S754_infinity false)
  | S754_zero _ => Ok (S754_zero false)
  | S754_finite _ m e =>
      let r := mul (S754_finite false m e) (S754_finite false m e) in
      if is_infinite r then Raise OverflowError else Ok r
  end.

(** ** NumPy [float64] operations: they warn, and return a value *)

Definition np_sqrt (x : float) : float := sqrt x.
Definition np_mul (x y : float) : float := mul x y.
Definition np_truediv (x y : float) : float := div x y.

(** [np.pi] *)
Definition np_pi : float := decimal 3141592653589793 1000000000000000.

(** ** [ChannelProperties] *)

Definition g : float := decimal 981 100.

Record ChannelProperties : Type := mkChannelProperties {
  width : float;
  height : float;
  length : float;
  tidal_averaged_flow : float;
  drag_coefficient : float;
  tidal_velocity_amplitude : float;
  diffusion_prefactor : float
}.

(** [diffusion_prefactor] is [None] when the caller leaves the default. *)
Definition ChannelProperties__init__
    (width height length tidal_averaged_flow drag_coefficient
     tidal_velocity_amplitude : float) (diffusion_prefactor : option float)
  : result ChannelProperties :=
  let diffusion_prefactor :=
    match diffusion_prefactor with
    | Some d => d
    | None => decimal 125 10000
    end in
  if ltb diffusion_prefactor (decimal 5 1000)
     || ltb (decimal 20 1000) diffusion_prefactor
  then Raise ValueError
  else Ok (mkChannelProperties width height length tidal_averaged_flow
             drag_coefficient tidal_velocity_amplitude diffusion_prefactor).

(** [self] is the value of a successful construction. *)
Definition constructed (self : ChannelProperties) : Prop :=
  exists (w h l q cd U : float) (dp : option float),
    ChannelProperties__init__ w h l q cd U dp = Ok self.

Definition frictionless_wave_velocity (self : ChannelProperties) : float :=
  np_sqrt (py_mul g (height self)).

(** Both quotients are between Python floats. *)
Definition friction_factor (self : ChannelProperties) : result float :=
  q <- py_truediv (drag_coefficient self) (height self) ;;
  r <- py_truediv (py_mul (of_Z 8) (tidal_velocity_amplitude self))
                  (py_mul (of_Z 3) np_pi) ;;
  Ok (py_mul q r).

(** The divisor is a NumPy [float64] ([np.sqrt] returns one), so the
    quotient is NumPy's. *)
Definition effective_diffusion_coefficient (self : ChannelProperties)
  : result float :=
  w2 <- py_pow2 (width self) ;;
  Ok (np_truediv
        (py_mul (diffusion_prefactor self)
                (py_mul w2 (tidal_velocity_amplitude self)))
        (np_mul (np_sqrt (drag_coefficient self)) (height self))).

(** ** [TideFrequency]: the two frequencies *)

Record TideFrequency : Type := mkTideFrequency {
  period_h : float;
  amplitude : float;
  phase : float
}.

(** [return 0] gives the integer 0, read here as the float zero. *)
Definition angular_frequency (self : TideFrequency) : result float :=
  if eqb (period_h self) (of_Z 0) then Ok (of_Z 0)
  else py_truediv (py_mul (of_Z 2) np_pi)
                  (py_mul (py_mul (period_h self) (of_Z 60)) (of_Z 60)).

Definition frequency (self : TideFrequency) : result float :=
  if eqb (period_h self) (of_Z 0) then Ok (of_Z 0)
  else py_truediv (of_Z 1)
                  (py_mul (py_mul (period_h self) (of_Z 60)) (of_Z 60)).

(** [x] is not NaN and carries the sign bit [s]. *)
Definition sign_is (s : bool) (x : float) : Prop :=
  match x with
  | S754_nan => False
  | S754_zero s' | S754_infinity s' | S754_finite s' _ _ => s' = s
  end.

End Binary64.

(** * Properties of the exact model *)

Section TideFrequencyFacts.

Import Exact.
Local Open Scope R_scope.

Lemma seconds_nonzero (p : R) : p <> 0 -> p * 60 * 60 <> 0.
Proof. intros Hp H. apply Hp. lra. Qed.

Lemma py_truediv_nonzero (x y : R) : y <> 0 -> py_truediv x y = Ok (x / y).
Proof.
  intros Hy. unfold py_truediv.
  destruct (Req_dec_T y 0) as [E | _]; [contradiction | reflexivity].
Qed.

Lemma py_truediv_zero (x : R) : py_truediv x 0 = Raise ZeroDivisionError.
Proof.
  unfold py_truediv.
  destruct (Req_dec_T 0 0) as [_ | N]; [reflexivity | now elim N].
Qed.

Lemma angular_frequency_zero_period (tide : TideFrequency) :
  period_h tide = 0 -> angular_frequency tide = Ok 0.
Proof.
  intros H. unfold angular_frequency.
  destruct (Req_dec_T (period_h tide) 0); [reflexivity | contradiction].
Qed.

Lemma frequency_zero_period (tide : TideFrequency) :
  period_h tide = 0 -> frequency tide = Ok 0.
Proof.
  intros H. unfold frequency.
  destruct (Req_dec_T (period_h tide) 0); [reflexivity | contradiction].
Qed.

Lemma angular_frequency_nonzero_period (tide : TideFrequency) :
  period_h tide <> 0 ->
  angular_frequency tide = Ok (2 * PI / (period_h tide * 3600)).
Proof.
  intros H. unfold angular_frequency.
  destruct (Req_dec_T (period_h tide) 0); [contradiction |].
  rewrite py_truediv_nonzero by now apply seconds_nonzero.
  f_equal. f_equal. ring.
Qed.

Lemma frequency_nonzero_period (tide : TideFrequency) :
  period_h tide <> 0 ->
  frequency tide = Ok (1 / (period_h tide * 3600)).
Proof.
  intros H. unfold frequency.
  destruct (Req_dec_T (period_h tide) 0); [contradiction |].
  rewrite py_truediv_nonzero by now apply seconds_nonzero.
  f_equal. f_equal. ring.
Qed.

(** C2. [angular_frequency] is 0 when [period_h == 0] and
    2π / (period_h · 3600) otherwise; [frequency] is 0 when
    [period_h == 0] and 1 / (period_h · 3600) otherwise, whatever the
    amplitude and the phase.  With a zero period the guarded quotient,
    which would raise, is not evaluated: the property returns 0. *)
Theorem frequencies_by_period (tide : TideFrequency) :
  (period_h tide = 0 ->
     angular_frequency tide = Ok 0 /\ frequency tide = Ok 0 /\
     py_truediv (2 * PI) (period_h tide * 60 * 60) = Raise ZeroDivisionError /\
     py_truediv 1 (period_h tide * 60 * 60) = Raise ZeroDivisionError) /\
  (period_h tide <> 0 ->
     angular_frequency tide = Ok (2 * PI / (period_h tide * 3600)) /\
     frequency tide = Ok (1 / (period_h tide * 3600))).
Proof.
  split; intros H.
  - repeat split.
    + now apply angular_frequency_zero_period.
    + now apply frequency_zero_period.
    + rewrite H. replace (0 * 60 * 60) with 0 by ring. apply py_truediv_zero.
    + rewrite H. replace (0 * 60 * 60) with 0 by ring. apply py_truediv_zero.
  - split.
    + now apply angular_frequency_nonzero_period.
    + now apply frequency_nonzero_period.
Qed.

Lemma frequencies_by_period_witness :
  (angular_frequency (mkTideFrequency 0 2 1) = Ok 0 /\
   frequency (mkTideFrequency 0 2 1) = Ok 0) /\
  (angular_frequency (mkTideFrequency 12 2 1) = Ok (2 * PI / (12 * 3600)) /\
   frequency (mkTideFrequency 12 2 1) = Ok (1 / (12 * 3600))).
Proof.
  split.
  - destruct (proj1 (frequencies_by_period (mkTideFrequency 0 2 1)))
      as (Ha & Hf & _); [reflexivity | exact (conj Ha Hf)].
  - apply (proj2 (frequencies_by_period (mkTideFrequency 12 2 1))).
    simpl. lra.
Defined.

(** C10. For every [TideFrequency], the zero-period case included, both
    properties return and [angular_frequency] is 2π times [frequency]. *)
Theorem angular_frequency_is_2pi_frequency (tide : TideFrequency) :
  exists omega f : R,
    angular_frequency tide = Ok omega /\ frequency tide = Ok f /\
    omega = 2 * PI * f.
Proof.
  destruct (Req_dec_T (period_h tide) 0) as [Z | NZ].
  - exists 0, 0. repeat split.
    + now apply angular_frequency_zero_period.
    + now apply frequency_zero_period.
    + ring.
  - exists (2 * PI / (period_h tide * 3600)), (1 / (period_h tide * 3600)).
    repeat split.
    + now apply angular_frequency_nonzero_period.
    + now apply frequency_nonzero_period.
    + field. exact NZ.
Qed.

End TideFrequencyFacts.

Section HeightFromTideFacts.

Import Exact.
Local Open Scope R_scope.

Lemma complex_amplitude_parts (tide : TideFrequency) :
  complex_amplitude tide =
  mkC (amplitude tide * cos (phase tide)) (amplitude tide * sin (phase tide)).
Proof. unfold complex_amplitude, Cadd, Cmul, Ci, RtoC. simpl. f_equal; ring. Qed.

Lemma imaginary_exponent (omega t : R) :
  Cmul (Cmul Ci (RtoC omega)) (RtoC t) = mkC 0 (omega * t).
Proof. unfold Cmul, Ci, RtoC. simpl. f_equal; ring. Qed.

Lemma height_at_formula (z : complex) (omega t : R) :
  height_at z omega t = Re (Cmul z (Cexp (mkC 0 (omega * t)))).
Proof. unfold height_at. now rewrite imaginary_exponent. Qed.

Lemma height_at_cos (tide : TideFrequency) (omega t : R) :
  height_at (complex_amplitude tide) omega t =
  amplitude tide * cos (phase tide + omega * t).
Proof.
  rewrite height_at_formula, complex_amplitude_parts, cos_plus.
  unfold Cmul, Cexp. simpl. rewrite exp_0. ring.
Qed.

Lemma height_from_tide_unfold (tide : TideFrequency) (omega : R) (t : ndval R) :
  angular_frequency tide = Ok omega ->
  height_from_tide tide t =
  Ok (np_map (height_at (complex_amplitude tide) omega) t).
Proof.
  intros H. unfold height_from_tide. rewrite H. simpl. f_equal.
  destruct t as [x | l]; simpl; [reflexivity |].
  f_equal. rewrite !map_map. reflexivity.
Qed.

Lemma angular_frequency_returns (tide : TideFrequency) :
  exists omega, angular_frequency tide = Ok omega.
Proof.
  destruct (Req_dec_T (period_h tide) 0) as [Z | NZ].
  - exists 0. now apply angular_frequency_zero_period.
  - eexists. now apply angular_frequency_nonzero_period.
Qed.

(** C5. For a scalar time [t], [height_from_tide tide t] returns the real
    number Re(complex_amplitude · e^(i·angular_frequency·t)), which is
    amplitude · cos(phase + angular_frequency · t); for period 12,
    amplitude 2, phase 0 and t = 0 it is 2. *)
Theorem height_from_tide_scalar (tide : TideFrequency) (t : R) :
  (exists omega : R,
     angular_frequency tide = Ok omega /\
     height_from_tide tide (Scalar t) =
       Ok (Scalar (Re (Cmul (complex_amplitude tide)
                            (Cexp (mkC 0 (omega * t)))))) /\
     height_from_tide tide (Scalar t) =
       Ok (Scalar (amplitude tide * cos (phase tide + omega * t)))) /\
  height_from_tide (mkTideFrequency 12 2 0) (Scalar 0) = Ok (Scalar 2).
Proof.
  split.
  - destruct (angular_frequency_returns tide) as [omega H].
    exists omega. split; [exact H |].
    rewrite (height_from_tide_unfold tide omega _ H). simpl. split.
    + now rewrite height_at_formula.
    + now rewrite height_at_cos.
  - destruct (angular_frequency_returns (mkTideFrequency 12 2 0)) as [omega H].
    rewrite (height_from_tide_unfold _ omega _ H). simpl.
    rewrite height_at_cos. simpl.
    replace (0 + omega * 0) with 0 by ring. rewrite cos_0.
    f_equal. f_equal. ring.
Qed.

(** C6. For a finite sequence of times, [height_from_tide] returns a
    sequence of the same length whose k-th element is the scalar result
    at the k-th time. *)
Theorem height_from_tide_elementwise (tide : TideFrequency) (ts : list R) :
  exists hs : list R,
    height_from_tide tide (Array ts) = Ok (Array hs) /\
    List.length hs = List.length ts /\
    forall k : nat, (k < List.length ts)%nat ->
      height_from_tide tide (Scalar (nth k ts 0)) = Ok (Scalar (nth k hs 0)).
Proof.
  destruct (angular_frequency_returns tide) as [omega H].
  exists (map (height_at (complex_amplitude tide) omega) ts).
  split; [| split].
  - now rewrite (height_from_tide_unfold tide omega _ H).
  - apply length_map.
  - intros k Hk. rewrite (height_from_tide_unfold tide omega _ H).
    unfold np_map. f_equal. f_equal.
    set (F := height_at (complex_amplitude tide) omega).
    transitivity (nth k (map F ts) (F 0)).
    + symmetry. apply map_nth.
    + apply nth_indep. now rewrite length_map.
Qed.

Lemma height_from_tide_elementwise_witness :
  exists hs : list R,
    height_from_tide (mkTideFrequency 12 2 0) (Array [0; 3600]) = Ok (Array hs) /\
    List.length hs = 2%nat /\
    height_from_tide (mkTideFrequency 12 2 0) (Scalar 3600) =
      Ok (Scalar (nth 1 hs 0)).
Proof.
  destruct (height_from_tide_elementwise (mkTideFrequency 12 2 0) [0; 3600])
    as (hs & Hrun & Hlen & Hk).
  exists hs. split; [exact Hrun | split; [exact Hlen |]].
  apply (Hk 1%nat). simpl. lia.
Defined.

End HeightFromTideFacts.

Section ComplexAmplitudeRoundTrip.

Import Exact.
Local Open Scope R_scope.

Lemma np_sign_pos (x : R) : 0 < x -> np_sign x = 1.
Proof.
  intros H. unfold np_sign.
  destruct (Rlt_dec x 0); [lra |]. destruct (Rlt_dec 0 x); [reflexivity | lra].
Qed.

Lemma np_sign_neg (x : R) : x < 0 -> np_sign x = -1.
Proof.
  intros H. unfold np_sign. destruct (Rlt_dec x 0); [reflexivity | lra].
Qed.

Lemma np_sign_zero : np_sign 0 = 0.
Proof.
  unfold np_sign.
  destruct (Rlt_dec 0 0); [lra |]. destruct (Rlt_dec 0 0); [lra | reflexivity].
Qed.

Lemma Cabs_complex_amplitude (tide : TideFrequency) :
  Cabs (complex_amplitude tide) = Rabs (amplitude tide).
Proof.
  rewrite complex_amplitude_parts. unfold Cabs. simpl.
  pose proof (sin2_cos2 (phase tide)) as H. unfold Rsqr in H.
  set (a := amplitude tide) in *.
  set (c := cos (phase tide)) in *. set (s := sin (phase tide)) in *.
  replace (a * c * (a * c) + a * s * (a * s)) with (a * a * (s * s + c * c))
    by ring.
  rewrite H, Rmult_1_r. change (a * a) with (Rsqr a). apply sqrt_Rsqr_abs.
Qed.

Lemma roundtrip_amplitude_value (tide : TideFrequency) :
  from_complex_amplitude_amplitude (complex_amplitude tide) =
  np_sign (amplitude tide * cos (phase tide)) * Rabs (amplitude tide).
Proof.
  unfold from_complex_amplitude_amplitude.
  rewrite Cabs_complex_amplitude. now rewrite complex_amplitude_parts.
Qed.

Lemma roundtrip_amplitude_match (tide : TideFrequency) :
  from_complex_amplitude_amplitude (complex_amplitude tide) = amplitude tide <->
  amplitude tide = 0 \/ 0 < cos (phase tide).
Proof.
  rewrite roundtrip_amplitude_value.
  set (a := amplitude tide). set (c := cos (phase tide)).
  destruct (Rtotal_order a 0) as [Ha | [Ha | Ha]].
  - rewrite (Rabs_left a Ha).
    destruct (Rtotal_order c 0) as [Hc | [Hc | Hc]].
    + rewrite np_sign_pos by nra. split; [intros; lra | intros [? | ?]; lra].
    + rewrite Hc, Rmult_0_r, np_sign_zero.
      split; [intros; lra | intros [? | ?]; lra].
    + rewrite np_sign_neg by nra. split; [intros; right; lra | intros; lra].
  - rewrite Ha, Rabs_R0, Rmult_0_r. split; [intros; now left | reflexivity].
  - rewrite (Rabs_right a) by lra.
    destruct (Rtotal_order c 0) as [Hc | [Hc | Hc]].
    + rewrite np_sign_neg by nra. split; [intros; lra | intros [? | ?]; lra].
    + rewrite Hc, Rmult_0_r, np_sign_zero.
      split; [intros; lra | intros [? | ?]; lra].
    + rewrite np_sign_pos by nra. split; [intros; right; lra | intros; lra].
Qed.

(** C3, as the code has it.  The amplitude that [from_complex_amplitude]
    derives from the complex amplitude z of
    [TideFrequency(period, amplitude, phase)] is
    sign(amplitude · cos phase) · |amplitude|.  It is the original
    amplitude exactly when the amplitude is 0 or cos(phase) > 0: for a
    positive amplitude exactly when Re z > 0, for a negative amplitude
    exactly when Re z < 0. *)
Theorem roundtrip_amplitude (period a phi : R) :
  from_complex_amplitude_amplitude
    (complex_amplitude (mkTideFrequency period a phi)) =
    np_sign (a * cos phi) * Rabs a /\
  (from_complex_amplitude_amplitude
     (complex_amplitude (mkTideFrequency period a phi)) = a <->
   a = 0 \/ 0 < cos phi) /\
  (0 < a ->
     (from_complex_amplitude_amplitude
        (complex_amplitude (mkTideFrequency period a phi)) = a <->
      0 < Re (complex_amplitude (mkTideFrequency period a phi)))) /\
  (a < 0 ->
     (from_complex_amplitude_amplitude
        (complex_amplitude (mkTideFrequency period a phi)) = a <->
      Re (complex_amplitude (mkTideFrequency period a phi)) < 0)).
Proof.
  pose proof (roundtrip_amplitude_match (mkTideFrequency period a phi)) as M.
  simpl in M.
  assert (HRe : Re (complex_amplitude (mkTideFrequency period a phi))
                = a * cos phi).
  { now rewrite complex_amplitude_parts. }
  split; [apply (roundtrip_amplitude_value (mkTideFrequency period a phi)) |].
  split; [exact M |]. rewrite HRe, M. split; intros Ha.
  - split; [intros [? | ?]; nra |].
    intros H. right. apply Rnot_le_lt. intros Hc. nra.
  - split; [intros [? | ?]; nra |].
    intros H. right. apply Rnot_le_lt. intros Hc. nra.
Qed.

Lemma roundtrip_amplitude_witness :
  from_complex_amplitude_amplitude
    (complex_amplitude (mkTideFrequency 12 2 0)) = 2.
Proof.
  destruct (roundtrip_amplitude 12 2 0) as (_ & _ & Hpos & _).
  apply Hpos; [lra |].
  rewrite complex_amplitude_parts. simpl. rewrite cos_0. lra.
Defined.

(** [np.arctan] receives the real part in its output position, so the
    call raises whatever the complex number is. *)
Lemma from_complex_amplitude_TypeError (z : complex) (period : R) :
  from_complex_amplitude z period = Raise TypeError.
Proof. reflexivity. Qed.

(** C3, as stated, fails for period 12, amplitude -1, phase 0: the real
    part of the complex amplitude is negative, yet the derived amplitude
    is the original one; and no [TideFrequency] is returned at all. *)
Lemma roundtrip_negative_real_part :
  Re (complex_amplitude (mkTideFrequency 12 (-1) 0)) < 0 /\
  from_complex_amplitude_amplitude
    (complex_amplitude (mkTideFrequency 12 (-1) 0)) = -1 /\
  from_complex_amplitude
    (complex_amplitude (mkTideFrequency 12 (-1) 0)) 12 = Raise TypeError.
Proof.
  split; [| split].
  - rewrite complex_amplitude_parts. simpl. rewrite cos_0. lra.
  - rewrite roundtrip_amplitude_value. simpl.
    rewrite cos_0, np_sign_neg by lra. rewrite Rabs_left by lra. ring.
  - apply from_complex_amplitude_TypeError.
Qed.

(** C4, on the code.  [from_complex_amplitude] raises [TypeError] for
    every complex scalar and every period: it returns no
    [TideFrequency]. *)
Theorem from_complex_amplitude_raises (z : complex) (period : R) :
  from_complex_amplitude z period = Raise TypeError /\
  ~ returns (from_complex_amplitude z period).
Proof.
  split; [apply from_complex_amplitude_TypeError |].
  intros [tf H]. rewrite from_complex_amplitude_TypeError in H. discriminate.
Qed.

End ComplexAmplitudeRoundTrip.

Section DataclassEquality.

Import Exact.
Local Open Scope R_scope.

Lemma Reqb_true (x y : R) : Reqb x y = true <-> x = y.
Proof.
  unfold Reqb. destruct (Req_dec_T x y); split; intros; congruence.
Qed.

Lemma access_fields (o : TideFrequency_instance) (n : cached_name) :
  fields (access o n) = fields o.
Proof.
  destruct n; simpl.
  - unfold get_complex_amplitude.
    destruct (dict_complex_amplitude o); reflexivity.
  - unfold get_angular_frequency.
    destruct (dict_angular_frequency o); [reflexivity |].
    destruct (angular_frequency (fields o)); reflexivity.
  - unfold get_frequency.
    destruct (dict_frequency o); [reflexivity |].
    destruct (frequency (fields o)); reflexivity.
Qed.

Lemma accesses_fields (ns : list cached_name) (o : TideFrequency_instance) :
  fields (fold_left access ns o) = fields o.
Proof.
  revert o. induction ns as [| n ns IH]; intros o; simpl.
  - reflexivity.
  - now rewrite IH, access_fields.
Qed.

(** C9. Two instances compare equal exactly when their three fields are
    equal, and reading cached properties, in any number and order, on
    either instance leaves the comparison unchanged. *)
Theorem TideFrequency_eq_fields
    (o1 o2 : TideFrequency_instance) (ns1 ns2 : list cached_name) :
  (TideFrequency__eq__ o1 o2 = true <->
     period_h (fields o1) = period_h (fields o2) /\
     amplitude (fields o1) = amplitude (fields o2) /\
     phase (fields o1) = phase (fields o2)) /\
  TideFrequency__eq__ (fold_left access ns1 o1) (fold_left access ns2 o2) =
  TideFrequency__eq__ o1 o2.
Proof.
  split.
  - unfold TideFrequency__eq__. rewrite !andb_true_iff, !Reqb_true. tauto.
  - unfold TideFrequency__eq__. now rewrite !accesses_fields.
Qed.

End DataclassEquality.

Section WaveVelocity.

Import Exact.
Local Open Scope R_scope.

Lemma Rltb_false (x y : R) : y <= x -> Rltb x y = false.
Proof. intros H. unfold Rltb. destruct (Rlt_dec x y); [lra | reflexivity]. Qed.

Lemma default_prefactor_constructs (w h l q cd U : R) :
  ChannelProperties__init__ w h l q cd U None =
  Ok (mkChannelProperties w h l q cd U 0.0125).
Proof.
  unfold ChannelProperties__init__. now rewrite !Rltb_false by lra.
Qed.

(** The range check over the reals: the closed interval is accepted. *)
Lemma exact_diffusion_prefactor_range (w h l q cd U dp : R) :
  (0.005 <= dp <= 0.020 ->
     ChannelProperties__init__ w h l q cd U (Some dp) =
     Ok (mkChannelProperties w h l q cd U dp)) /\
  (dp < 0.005 \/ 0.020 < dp ->
     ChannelProperties__init__ w h l q cd U (Some dp) = Raise ValueError).
Proof.
  unfold ChannelProperties__init__. split.
  - intros [Hlo Hhi]. now rewrite !Rltb_false by lra.
  - unfold Rltb. intros [H | H].
    + destruct (Rlt_dec dp 0.005); [reflexivity | lra].
    + destruct (Rlt_dec dp 0.005); [reflexivity |].
      destruct (Rlt_dec 0.020 dp); [reflexivity | lra].
Qed.

Lemma sqrt_g_bounds : 3.13205 < sqrt 9.81 < 3.13215.
Proof.
  split.
  - rewrite <- (sqrt_square 3.13205) by lra. apply sqrt_lt_1; lra.
  - rewrite <- (sqrt_square 3.13215) by lra. apply sqrt_lt_1; lra.
Qed.

(** C7. For every constructed [ChannelProperties],
    [frictionless_wave_velocity] is √(9.81 · height); it is 9.81 when the
    height is 9.81, within 0.00005 of 3.1321 when the height is 1, and
    strictly increasing in the height over positive heights. *)
Theorem frictionless_wave_velocity_sqrt (self : ChannelProperties) :
  constructed self ->
  frictionless_wave_velocity self = sqrt (9.81 * height self) /\
  (height self = 9.81 -> frictionless_wave_velocity self = 9.81) /\
  (height self = 1 -> Rabs (frictionless_wave_velocity self - 3.1321) < 0.00005) /\
  (forall other : ChannelProperties,
     constructed other -> 0 < height self -> height self < height other ->
     frictionless_wave_velocity self < frictionless_wave_velocity other).
Proof.
  intros _. unfold frictionless_wave_velocity, g.
  split; [reflexivity | split; [| split]].
  - intros ->. apply sqrt_square. lra.
  - intros ->. rewrite Rmult_1_r. pose proof sqrt_g_bounds as [Hl Hu].
    apply Rabs_def1; lra.
  - intros other _ Hpos Hlt. apply sqrt_lt_1; nra.
Qed.

Lemma frictionless_wave_velocity_sqrt_witness :
  frictionless_wave_velocity (mkChannelProperties 1 9.81 1 1 1 1 0.0125) = 9.81 /\
  frictionless_wave_velocity (mkChannelProperties 1 1 1 1 1 1 0.0125)
  < frictionless_wave_velocity (mkChannelProperties 1 9.81 1 1 1 1 0.0125).
Proof.
  assert (C : forall h, constructed (mkChannelProperties 1 h 1 1 1 1 0.0125)).
  { intros h. exists 1, h, 1, 1, 1, 1, None. apply default_prefactor_constructs. }
  split.
  - apply (frictionless_wave_velocity_sqrt _ (C 9.81)). reflexivity.
  - apply (frictionless_wave_velocity_sqrt _ (C 1)); [apply C | |]; simpl; lra.
Defined.

End WaveVelocity.

(** * Properties of the binary64 model *)

Section RangeCheck.

Import Binary64.
Local Open Scope Z_scope.

Lemma SFcompare_antisym (x y : float) :
  SFcompare y x = option_map CompOpp (SFcompare x y).
Proof.
  destruct x as [sx | sx | | sx mx ex], y as [sy | sy | | sy my ey];
    simpl; try reflexivity;
    try (destruct sx; reflexivity); try (destruct sy; reflexivity);
    try (destruct sx, sy; reflexivity).
  destruct sx, sy; simpl; try reflexivity;
    rewrite (Z.compare_antisym ex ey);
    destruct (ex ?= ey) eqn:E; simpl; try reflexivity.
  - f_equal. rewrite CompOpp_involutive.
    exact (Pos.compare_cont_antisym my mx Eq).
  - f_equal. symmetry. exact (Pos.compare_cont_antisym mx my Eq).
Qed.

Lemma leb_not_ltb (x y : float) : leb x y = true -> ltb y x = false.
Proof.
  unfold leb, ltb, SFleb, SFltb. rewrite (SFcompare_antisym x y).
  destruct (SFcompare x y) as [[ | | ] |]; simpl; congruence.
Qed.

(** C1. Construction succeeds, storing the seven arguments, for every
    [diffusion_prefactor] with 0.005 <= diffusion_prefactor <= 0.020, the
    two bounds and the default 0.0125 among them, and raises [ValueError] for
    every [diffusion_prefactor] below 0.005 or above 0.020.  The other six
    arguments are arbitrary: a construction fails only through this
    check. *)
Theorem diffusion_prefactor_range
    (w h l q cd U : float) (dp : float) :
  (leb (decimal 5 1000) dp = true -> leb dp (decimal 20 1000) = true ->
     ChannelProperties__init__ w h l q cd U (Some dp) =
     Ok (mkChannelProperties w h l q cd U dp)) /\
  (ltb dp (decimal 5 1000) = true \/ ltb (decimal 20 1000) dp = true ->
     ChannelProperties__init__ w h l q cd U (Some dp) = Raise ValueError) /\
  ChannelProperties__init__ w h l q cd U (Some (decimal 5 1000)) =
    Ok (mkChannelProperties w h l q cd U (decimal 5 1000)) /\
  ChannelProperties__init__ w h l q cd U (Some (decimal 20 1000)) =
    Ok (mkChannelProperties w h l q cd U (decimal 20 1000)) /\
  ChannelProperties__init__ w h l q cd U None =
    Ok (mkChannelProperties w h l q cd U (decimal 125 10000)) /\
  (forall e : exn,
     ChannelProperties__init__ w h l q cd U (Some dp) = Raise e ->
     e = ValueError /\
     (ltb dp (decimal 5 1000) = true \/ ltb (decimal 20 1000) dp = true)).
Proof.
  assert (Hin : forall d : float,
            leb (decimal 5 1000) d = true -> leb d (decimal 20 1000) = true ->
            ChannelProperties__init__ w h l q cd U (Some d) =
            Ok (mkChannelProperties w h l q cd U d)).
  { intros d Hlo Hhi. unfold ChannelProperties__init__.
    now rewrite (leb_not_ltb _ _ Hlo), (leb_not_ltb _ _ Hhi). }
  split; [apply Hin |].
  split.
  { intros Hout. unfold ChannelProperties__init__.
    apply orb_true_iff in Hout. now rewrite Hout. }
  split; [now apply Hin |].
  split; [now apply Hin |].
  split; [reflexivity |].
  intros e He. unfold ChannelProperties__init__ in He.
  rewrite <- orb_true_iff.
  destruct (ltb dp (decimal 5 1000) || ltb (decimal 20 1000) dp).
  - split; [congruence | reflexivity].
  - discriminate.
Qed.

Lemma diffusion_prefactor_range_witness :
  ChannelProperties__init__ (of_Z 1) (of_Z 1) (of_Z 1) (of_Z 1) (of_Z 1)
    (of_Z 1) (Some (decimal 1 100)) =
  Ok (mkChannelProperties (of_Z 1) (of_Z 1) (of_Z 1) (of_Z 1) (of_Z 1)
        (of_Z 1) (decimal 1 100)) /\
  ChannelProperties__init__ (of_Z 1) (of_Z 1) (of_Z 1) (of_Z 1) (of_Z 1)
    (of_Z 1) (Some (decimal 21 1000)) = Raise ValueError.
Proof.
  split.
  - apply (diffusion_prefactor_range (of_Z 1) (of_Z 1) (of_Z 1) (of_Z 1)
             (of_Z 1) (of_Z 1) (decimal 1 100)); reflexivity.
  - apply (diffusion_prefactor_range (of_Z 1) (of_Z 1) (of_Z 1) (of_Z 1)
             (of_Z 1) (of_Z 1) (decimal 21 1000)).
    right. reflexivity.
Defined.

End RangeCheck.

Section Binary64Rounding.

Import Binary64.
Local Open Scope Z_scope.

(** A finite product whose exponent range stays above the underflow
    threshold is not rounded to zero: it keeps the sign given by the
    operands and is finite or infinite. *)

Lemma digits2_pos_size (m : positive) : digits2_pos m = Pos.size m.
Proof. induction m as [m IH | m IH |]; simpl; now rewrite ?IH. Qed.

Lemma Zdigits2_log2 (m : positive) :
  Zpos (digits2_pos m) = Z.log2 (Zpos m) + 1.
Proof.
  rewrite digits2_pos_size.
  destruct m as [m | m |]; simpl; try reflexivity; lia.
Qed.

Lemma shr_1_m (mrs : shr_record) :
  0 <= shr_m mrs -> shr_m (shr_1 mrs) = Z.div2 (shr_m mrs).
Proof.
  destruct mrs as [m r s]. simpl. intros H.
  destruct m as [| [p | p |] | p]; simpl; try reflexivity; lia.
Qed.

Lemma iter_shr_1_m (p : positive) (mrs : shr_record) :
  0 <= shr_m mrs ->
  shr_m (iter_pos shr_1 p mrs) = Z.shiftr (shr_m mrs) (Zpos p).
Proof.
  revert mrs. induction p as [p IH | p IH |]; intros mrs H; simpl iter_pos.
  - assert (H1 : 0 <= shr_m (shr_1 mrs)).
    { rewrite shr_1_m by exact H. apply Z.div2_nonneg. exact H. }
    assert (H2 : 0 <= shr_m (iter_pos shr_1 p (shr_1 mrs))).
    { rewrite IH by exact H1. apply Z.shiftr_nonneg. exact H1. }
    rewrite IH by exact H2. rewrite IH by exact H1. rewrite shr_1_m by exact H.
    rewrite Z.div2_spec, !Z.shiftr_shiftr by lia. f_equal. lia.
  - assert (H2 : 0 <= shr_m (iter_pos shr_1 p mrs)).
    { rewrite IH by exact H. apply Z.shiftr_nonneg. exact H. }
    rewrite IH by exact H2. rewrite IH by exact H.
    rewrite Z.shiftr_shiftr by lia. f_equal. lia.
  - rewrite shr_1_m by exact H. now rewrite Z.div2_spec.
Qed.

Lemma Zdigits2_pos_log2 (m : Z) : 0 < m -> Zdigits2 m = Z.log2 m + 1.
Proof.
  destruct m as [| p | p]; try lia. intros _. simpl Zdigits2.
  apply Zdigits2_log2.
Qed.

Lemma shr_record_of_loc_m (m : Z) (l : location) :
  shr_m (shr_record_of_loc m l) = m.
Proof. destruct l as [| []]; reflexivity. Qed.

Lemma shiftr_pos (m n : Z) : 0 < m -> 0 <= n -> n <= Z.log2 m -> 0 < Z.shiftr m n.
Proof.
  intros Hm Hn Hl. rewrite Z.shiftr_div_pow2 by exact Hn.
  apply Z.div_str_pos. split; [apply Z.pow_pos_nonneg; lia |].
  transitivity (2 ^ Z.log2 m).
  - apply Z.pow_le_mono_r; lia.
  - apply Z.log2_spec. exact Hm.
Qed.

Lemma shr_fexp_positive (m e : Z) (l : location) :
  0 < m -> emin prec emax < Zdigits2 m + e ->
  0 < shr_m (fst (shr_fexp prec emax m e l)) /\
  Zdigits2 (shr_m (fst (shr_fexp prec emax m e l)))
    + snd (shr_fexp prec emax m e l) = Zdigits2 m + e.
Proof.
  intros Hm He. unfold shr_fexp, shr.
  pose proof (Zdigits2_pos_log2 m Hm) as Hd.
  pose proof (Z.log2_nonneg m) as Hl.
  assert (Hn : fexp prec emax (Zdigits2 m + e) - e <= Z.log2 m).
  { unfold fexp, emin, prec, emax in *. lia. }
  destruct (fexp prec emax (Zdigits2 m + e) - e) as [| p | p] eqn:En; simpl fst; simpl snd;
    rewrite ?shr_record_of_loc_m; try (split; [exact Hm | reflexivity]).
  rewrite iter_shr_1_m by (rewrite shr_record_of_loc_m; lia).
  rewrite shr_record_of_loc_m.
  assert (Hs : 0 < Z.shiftr m (Zpos p)) by (apply shiftr_pos; lia).
  split; [exact Hs |].
  rewrite (Zdigits2_pos_log2 _ Hs), Z.log2_shiftr by exact Hm. lia.
Qed.

Lemma round_nearest_even_bounds (m : Z) (l : location) :
  m <= round_nearest_even m l <= m + 1.
Proof.
  unfold round_nearest_even. destruct l as [| []]; try lia.
  destruct (Z.even m); lia.
Qed.

Lemma Zdigits2_le (a b : Z) : 0 < a -> a <= b -> Zdigits2 a <= Zdigits2 b.
Proof.
  intros Ha Hab. rewrite !Zdigits2_pos_log2 by lia.
  pose proof (Z.log2_le_mono a b Hab). lia.
Qed.

Lemma binary_round_aux_nonzero (s : bool) (m : positive) (e : Z) (l : location) :
  emin prec emax < Zdigits2 (Zpos m) + e ->
  binary_round_aux prec emax s (Zpos m) e l = S754_infinity s \/
  exists (m' : positive) (e' : Z),
    binary_round_aux prec emax s (Zpos m) e l = S754_finite s m' e' /\
    Zdigits2 (Zpos m) + e <= Zdigits2 (Zpos m') + e'.
Proof.
  intros He. unfold binary_round_aux.
  destruct (shr_fexp_positive (Zpos m) e l (eq_refl _) He) as [H1 H1d].
  destruct (shr_fexp prec emax (Zpos m) e l) as [mrs1 e1]. simpl fst in *. simpl snd in *.
  pose proof (round_nearest_even_bounds (shr_m mrs1) (loc_of_shr_record mrs1)) as Hr.
  set (m2 := round_nearest_even (shr_m mrs1) (loc_of_shr_record mrs1)) in *.
  assert (Hm2 : 0 < m2) by lia.
  assert (Hd2 : Zdigits2 (shr_m mrs1) <= Zdigits2 m2) by (apply Zdigits2_le; lia).
  destruct (shr_fexp_positive m2 e1 loc_Exact Hm2 ltac:(lia)) as [H3 H3d].
  destruct (shr_fexp prec emax m2 e1 loc_Exact) as [mrs3 e3]. simpl fst in *. simpl snd in *.
  destruct (shr_m mrs3) as [| m3 | m3] eqn:E3; try lia.
  destruct (e3 <=? emax - prec); [right | now left].
  exists m3, e3. split; [reflexivity | lia].
Qed.

Lemma digits_mul (a b : positive) :
  Zdigits2 (Zpos a) + Zdigits2 (Zpos b) - 1 <= Zdigits2 (Zpos (a * b)).
Proof.
  rewrite !Zdigits2_pos_log2 by lia. rewrite Pos2Z.inj_mul.
  pose proof (Z.log2_mul_below (Zpos a) (Zpos b)). lia.
Qed.

Lemma valid_finite_exponent (s : bool) (m : positive) (e : Z) :
  valid (S754_finite s m e) = true -> emin prec emax < Zdigits2 (Zpos m) + e.
Proof.
  unfold valid, valid_binary, bounded, canonical_mantissa.
  intros H. apply andb_true_iff in H as [H _]. apply Z.eqb_eq in H.
  simpl Zdigits2. unfold fexp in H. lia.
Qed.

Lemma mul_finite_nonzero (sx : bool) (mx : positive) (ex : Z)
    (sy : bool) (my : positive) (ey : Z) :
  emin prec emax + 1 < Zdigits2 (Zpos mx) + ex + (Zdigits2 (Zpos my) + ey) ->
  mul (S754_finite sx mx ex) (S754_finite sy my ey) = S754_infinity (xorb sx sy) \/
  exists (m : positive) (e : Z),
    mul (S754_finite sx mx ex) (S754_finite sy my ey) = S754_finite (xorb sx sy) m e /\
    Zdigits2 (Zpos mx) + ex + (Zdigits2 (Zpos my) + ey) - 1 <= Zdigits2 (Zpos m) + e.
Proof.
  intros H. unfold mul, SFmul.
  pose proof (digits_mul mx my) as Hd.
  destruct (binary_round_aux_nonzero (xorb sx sy) (mx * my) (ex + ey) loc_Exact)
    as [Hi | (m & e & Hf & Hm)]; [lia | now left | right].
  exists m, e. split; [exact Hf | lia].
Qed.

Lemma eqb_zero (x : float) : eqb x (of_Z 0) = is_zero x.
Proof. destruct x as [s | s | | s m e]; try reflexivity; destruct s; reflexivity. Qed.

Lemma ltb_zero (x : float) :
  ltb x (of_Z 0) = true ->
  x = S754_infinity true \/ exists m e, x = S754_finite true m e.
Proof.
  destruct x as [s | s | | s m e]; try discriminate; destruct s; try discriminate.
  - now left.
  - right. now exists m, e.
Qed.

(** Multiplying by 60 keeps a nonzero value away from zero. *)
Lemma mul_sixty_nonzero (x : float) (k : Z) :
  0 <= k ->
  match x with
  | S754_finite _ m e => emin prec emax + k < Zdigits2 (Zpos m) + e
  | S754_zero _ => False
  | _ => True
  end ->
  match py_mul x (of_Z 60) with
  | S754_finite _ m e => emin prec emax + k < Zdigits2 (Zpos m) + e
  | S754_zero _ => False
  | _ => True
  end.
Proof.
  intros Hk. change (of_Z 60) with (S754_finite false 8444249301319680 (-47)).
  destruct x as [s | s | | s m e];
    [cbn [py_mul mul SFmul xorb]; tauto ..  |].
  intros H. unfold py_mul.
  assert (D : Zdigits2 (Zpos 8444249301319680) = 53) by reflexivity.
  destruct (mul_finite_nonzero s m e false 8444249301319680 (-47))
    as [Hi | (m' & e' & Hf & Hm)].
  - rewrite D. cbn [Zdigits2] in *. lia.
  - now rewrite Hi.
  - rewrite Hf. rewrite D in Hm. cbn [Zdigits2] in *. lia.
Qed.

Lemma seconds_nonzero64 (p : float) :
  valid p = true -> is_zero p = false ->
  is_zero (py_mul (py_mul p (of_Z 60)) (of_Z 60)) = false.
Proof.
  intros Hv Hz.
  assert (H0 : match p with
               | S754_finite _ m e => emin prec emax + 0 < Zdigits2 (Zpos m) + e
               | S754_zero _ => False
               | _ => True
               end).
  { destruct p as [s | s | | s m e]; try exact I; try discriminate.
    pose proof (valid_finite_exponent s m e Hv). cbn [Zdigits2] in *. lia. }
  pose proof (mul_sixty_nonzero _ 0 (Z.le_refl 0) (mul_sixty_nonzero _ 0 (Z.le_refl 0) H0)) as H2.
  destruct (py_mul (py_mul p (of_Z 60)) (of_Z 60)); [contradiction | reflexivity ..].
Qed.

Lemma g_times_negative (h : float) :
  valid h = true -> ltb h (of_Z 0) = true ->
  py_mul g h = S754_infinity true \/ exists m e, py_mul g h = S754_finite true m e.
Proof.
  intros Hv Hn. change g with (S754_finite false 5522539043063071 (-49)).
  destruct (ltb_zero h Hn) as [-> | (m & e & ->)]; [now left |].
  pose proof (valid_finite_exponent true m e Hv) as He.
  assert (D : Zdigits2 (Zpos 5522539043063071) = 53) by reflexivity.
  destruct (mul_finite_nonzero false 5522539043063071 (-49) true m e)
    as [Hi | (m' & e' & Hf & _)].
  - rewrite D. cbn [Zdigits2] in *. lia.
  - left. exact Hi.
  - right. exists m', e'. exact Hf.
Qed.


Lemma three_pi_nonzero : is_zero (py_mul (of_Z 3) np_pi) = false.
Proof. reflexivity. Qed.

Lemma div_zero_or_nan (x d : float) :
  zero_or_nan d = true -> is_finite (div x d) = false.
Proof.
  destruct d as [s | s | | s m e]; try discriminate; intros _;
    destruct x as [sx | sx | | sx mx ex]; reflexivity.
Qed.

Lemma mul_zero_r (x h : float) :
  is_zero h = true -> zero_or_nan (mul x h) = true.
Proof.
  destruct h as [s | s | | s m e]; try discriminate; intros _;
    destruct x as [sx | sx | | sx mx ex]; reflexivity.
Qed.

Lemma mul_zero_or_nan_l (x h : float) :
  zero_or_nan x = true -> zero_or_nan (mul x h) = true.
Proof.
  destruct x as [sx | sx | | sx mx ex]; try discriminate; intros _;
    destruct h as [s | s | | s m e]; reflexivity.
Qed.

Lemma sqrt_nonpositive (x : float) :
  is_zero x = true \/ ltb x (of_Z 0) = true -> zero_or_nan (sqrt x) = true.
Proof.
  intros [H | H].
  - destruct x; try discriminate; reflexivity.
  - destruct (ltb_zero x H) as [-> | (m & e & ->)]; reflexivity.
Qed.

Lemma py_pow2_overflow (w : float) :
  py_pow2 w = Raise OverflowError <->
  is_finite w = true /\ is_infinite (mul (SFabs w) (SFabs w)) = true.
Proof.
  destruct w as [s | s | | s m e]; cbn [py_pow2 is_finite SFabs].
  - split; [discriminate | intros [_ H]; discriminate].
  - split; [discriminate | intros [H _]; discriminate].
  - split; [discriminate | intros [H _]; discriminate].
  - destruct (is_infinite (mul (S754_finite false m e) (S754_finite false m e)));
      split; try tauto; try discriminate. intros [_ H]; discriminate.
Qed.

Lemma py_pow2_raises (w : float) (e : exn) :
  py_pow2 w = Raise e -> e = OverflowError.
Proof.
  destruct w as [s | s | | s m x]; cbn [py_pow2]; try discriminate.
  destruct (is_infinite _); congruence.
Qed.

(** C8, as the code has it.  For a constructed [ChannelProperties] and a
    [TideFrequency] holding binary64 values: [angular_frequency] and
    [frequency] return ([frictionless_wave_velocity] is a total function);
    [friction_factor] raises [ZeroDivisionError] exactly when the height
    is zero and returns otherwise; [effective_diffusion_coefficient]
    raises [OverflowError] exactly when the width is finite and its
    square overflows, and returns otherwise.  A negative height makes
    [frictionless_wave_velocity] NaN, and a zero height or a zero or
    negative drag coefficient makes the value returned by
    [effective_diffusion_coefficient] infinite or NaN. *)
Theorem derived_property_errors (self : ChannelProperties) (tide : TideFrequency) :
  constructed self ->
  valid (height self) = true -> valid (period_h tide) = true ->
  returns (angular_frequency tide) /\ returns (frequency tide) /\
  (friction_factor self = Raise ZeroDivisionError <->
     is_zero (height self) = true) /\
  (is_zero (height self) = false -> returns (friction_factor self)) /\
  (effective_diffusion_coefficient self = Raise OverflowError <->
     is_finite (width self) = true /\
     is_infinite (mul (SFabs (width self)) (SFabs (width self))) = true) /\
  (effective_diffusion_coefficient self <> Raise OverflowError ->
     returns (effective_diffusion_coefficient self)) /\
  (ltb (height self) (of_Z 0) = true ->
     is_nan (frictionless_wave_velocity self) = true) /\
  (forall v : float,
     effective_diffusion_coefficient self = Ok v ->
     is_zero (height self) = true \/ is_zero (drag_coefficient self) = true \/
     ltb (drag_coefficient self) (of_Z 0) = true ->
     is_finite v = false).
Proof.
  intros _ Hh Hp.
  assert (Hsec : is_zero (period_h tide) = false ->
                 is_zero (py_mul (py_mul (period_h tide) (of_Z 60)) (of_Z 60)) = false).
  { now apply seconds_nonzero64. }
  split; [| split; [| split; [| split; [| split; [| split; [| split]]]]]].
  - unfold angular_frequency. rewrite eqb_zero.
    destruct (is_zero (period_h tide)); [now eexists |].
    unfold py_truediv. rewrite Hsec by reflexivity. now eexists.
  - unfold frequency. rewrite eqb_zero.
    destruct (is_zero (period_h tide)); [now eexists |].
    unfold py_truediv. rewrite Hsec by reflexivity. now eexists.
  - unfold friction_factor, py_truediv. rewrite three_pi_nonzero.
    destruct (is_zero (height self)); cbn [bind]; split; congruence.
  - intros Hz. unfold friction_factor, py_truediv.
    rewrite three_pi_nonzero, Hz. cbn [bind]. now eexists.
  - rewrite <- py_pow2_overflow. unfold effective_diffusion_coefficient.
    destruct (py_pow2 (width self)); cbn [bind]; split; congruence.
  - unfold effective_diffusion_coefficient.
    destruct (py_pow2 (width self)) as [w2 | e] eqn:E; cbn [bind].
    + intros _. now eexists.
    + rewrite (py_pow2_raises _ _ E). congruence.
  - intros Hn. unfold frictionless_wave_velocity.
    destruct (g_times_negative _ Hh Hn) as [-> | (m & e & ->)]; reflexivity.
  - intros v Hv Hcase. unfold effective_diffusion_coefficient in Hv.
    destruct (py_pow2 (width self)) as [w2 | e]; cbn [bind] in Hv; [| discriminate].
    injection Hv as <-. apply div_zero_or_nan.
    destruct Hcase as [Hz | Hcd].
    + now apply mul_zero_r.
    + apply mul_zero_or_nan_l. now apply sqrt_nonpositive.
Qed.

Lemma derived_property_errors_witness :
  is_nan (frictionless_wave_velocity
            (mkChannelProperties (of_Z 1) (of_Z (-1)) (of_Z 1) (of_Z 1)
               (of_Z 1) (of_Z 1) (decimal 125 10000))) = true /\
  returns (angular_frequency (mkTideFrequency (of_Z (-12)) (of_Z 1) (of_Z 0))).
Proof.
  assert (C : constructed
                (mkChannelProperties (of_Z 1) (of_Z (-1)) (of_Z 1) (of_Z 1)
                   (of_Z 1) (of_Z 1) (decimal 125 10000))).
  { exists (of_Z 1), (of_Z (-1)), (of_Z 1), (of_Z 1), (of_Z 1), (of_Z 1), None.
    reflexivity. }
  destruct (derived_property_errors _
              (mkTideFrequency (of_Z (-12)) (of_Z 1) (of_Z 0)) C
              (eq_refl true) (eq_refl true))
    as (Hw & _ & _ & _ & _ & _ & Hnan & _).
  split; [apply Hnan; reflexivity | exact Hw].
Defined.

(** C8, as stated, fails at height 0: the construction succeeds and
    reading [friction_factor] raises [ZeroDivisionError].  It also fails
    at period -12, where [angular_frequency] and [frequency] are finite. *)
Lemma friction_factor_raises_at_zero_height :
  (exists self : ChannelProperties,
     ChannelProperties__init__ (of_Z 1) (of_Z 0) (of_Z 1) (of_Z 1) (of_Z 1)
       (of_Z 1) None = Ok self /\
     friction_factor self = Raise ZeroDivisionError) /\
  (exists omega f : float,
     angular_frequency (mkTideFrequency (of_Z (-12)) (of_Z 1) (of_Z 0)) = Ok omega /\
     frequency (mkTideFrequency (of_Z (-12)) (of_Z 1) (of_Z 0)) = Ok f /\
     is_finite omega = true /\ is_finite f = true).
Proof.
  split.
  - eexists. split; reflexivity.
  - eexists. eexists. repeat split; reflexivity.
Qed.

(** [effective_diffusion_coefficient] at width 1e200: the square
    overflows and the access raises. *)
Lemma effective_diffusion_coefficient_overflow :
  effective_diffusion_coefficient
    (mkChannelProperties (of_Z (10 ^ 200)) (of_Z 1) (of_Z 1) (of_Z 1)
       (of_Z 1) (of_Z 1) (decimal 125 10000)) = Raise OverflowError.
Proof. reflexivity. Qed.

(** The wave velocity in binary64: exactly 9.81 at height 9.81, and
    3.132091952673165 at height 1. *)
Lemma frictionless_wave_velocity_binary64 :
  frictionless_wave_velocity
    (mkChannelProperties (of_Z 1) (decimal 981 100) (of_Z 1) (of_Z 1)
       (of_Z 1) (of_Z 1) (decimal 125 10000)) = decimal 981 100 /\
  frictionless_wave_velocity
    (mkChannelProperties (of_Z 1) (of_Z 1) (of_Z 1) (of_Z 1)
       (of_Z 1) (of_Z 1) (decimal 125 10000)) =
  decimal 3132091952673165 1000000000000000.
Proof. split; reflexivity. Qed.

(** Rounding.  In binary64 each quotient is rounded on its own: at
    period 5 the computed [angular_frequency] and 2π times the computed
    [frequency] differ in the last place.  The identities between the
    formulas are statements of the exact model. *)
Lemma binary64_frequencies_round_separately :
  exists omega f : float,
    angular_frequency (mkTideFrequency (of_Z 5) (of_Z 1) (of_Z 0)) = Ok omega /\
    frequency (mkTideFrequency (of_Z 5) (of_Z 1) (of_Z 0)) = Ok f /\
    omega = decimal 3490658503988659 10000000000000000000 /\
    py_mul (py_mul (of_Z 2) np_pi) f <> omega.
Proof.
  eexists. eexists. repeat split; try reflexivity. discriminate.
Qed.

End Binary64Rounding.

(** * Further properties of the exact model *)

Section TidalHeightLaws.

Import Exact.
Local Open Scope R_scope.

Lemma height_from_tide_cos (tide : TideFrequency) (omega t : R) :
  angular_frequency tide = Ok omega ->
  height_from_tide tide (Scalar t) =
  Ok (Scalar (amplitude tide * cos (phase tide + omega * t))).
Proof.
  intros H. rewrite (height_from_tide_unfold tide omega _ H). simpl.
  now rewrite height_at_cos.
Qed.

(** X1. With a non-zero period the tidal height repeats after one period
    (period_h · 3600 seconds) and changes sign after half a period. *)
Theorem height_from_tide_periodic (tide : TideFrequency) (t : R) :
  period_h tide <> 0 ->
  height_from_tide tide (Scalar (t + period_h tide * 3600)) =
    height_from_tide tide (Scalar t) /\
  exists h : R,
    height_from_tide tide (Scalar t) = Ok (Scalar h) /\
    height_from_tide tide (Scalar (t + period_h tide * 1800)) =
      Ok (Scalar (- h)).
Proof.
  intros Hp.
  pose proof (angular_frequency_nonzero_period tide Hp) as Hw.
  set (omega := 2 * PI / (period_h tide * 3600)) in *.
  assert (E1 : omega * (t + period_h tide * 3600) = omega * t + 2 * PI).
  { unfold omega. field. exact Hp. }
  assert (E2 : omega * (t + period_h tide * 1800) = omega * t + PI).
  { unfold omega. field. exact Hp. }
  split.
  - rewrite !(height_from_tide_cos tide omega _ Hw), E1.
    rewrite <- Rplus_assoc, cos_plus, cos_2PI, sin_2PI.
    do 3 f_equal. ring.
  - exists (amplitude tide * cos (phase tide + omega * t)).
    rewrite !(height_from_tide_cos tide omega _ Hw), E2.
    split; [reflexivity |].
    rewrite <- Rplus_assoc, neg_cos. do 2 f_equal. ring.
Qed.

Lemma height_from_tide_periodic_witness :
  height_from_tide (mkTideFrequency 12 2 1) (Scalar (100 + 12 * 3600)) =
  height_from_tide (mkTideFrequency 12 2 1) (Scalar 100).
Proof.
  apply (height_from_tide_periodic (mkTideFrequency 12 2 1) 100).
  simpl. lra.
Defined.

(** X2. The tidal height never exceeds the amplitude in absolute value,
    at any time and for any period. *)
Theorem height_from_tide_bounded (tide : TideFrequency) (t : R) :
  exists h : R,
    height_from_tide tide (Scalar t) = Ok (Scalar h) /\
    Rabs h <= Rabs (amplitude tide).
Proof.
  destruct (angular_frequency_returns tide) as [omega Hw].
  exists (amplitude tide * cos (phase tide + omega * t)).
  split; [now apply height_from_tide_cos |].
  rewrite Rabs_mult.
  pose proof (COS_bound (phase tide + omega * t)) as [Hl Hu].
  pose proof (Rabs_pos (amplitude tide)) as Ha.
  assert (Hc : Rabs (cos (phase tide + omega * t)) <= 1).
  { apply Rabs_le. lra. }
  nra.
Qed.

(** X3. A constituent with period 0 is steady: at every time, scalar or
    array, the height is amplitude · cos(phase). *)
Theorem height_from_tide_steady (tide : TideFrequency) :
  period_h tide = 0 ->
  (forall t : R,
     height_from_tide tide (Scalar t) =
     Ok (Scalar (amplitude tide * cos (phase tide)))) /\
  (forall ts : list R,
     height_from_tide tide (Array ts) =
     Ok (Array (map (fun _ => amplitude tide * cos (phase tide)) ts))).
Proof.
  intros Hp. pose proof (angular_frequency_zero_period tide Hp) as Hw.
  assert (E : forall t, height_at (complex_amplitude tide) 0 t =
                        amplitude tide * cos (phase tide)).
  { intros t. rewrite height_at_cos. f_equal. f_equal. ring. }
  split.
  - intros t. rewrite (height_from_tide_unfold tide 0 _ Hw). simpl.
    now rewrite E.
  - intros ts. rewrite (height_from_tide_unfold tide 0 _ Hw). simpl.
    do 2 f_equal. apply map_ext. exact E.
Qed.

Lemma height_from_tide_steady_witness :
  height_from_tide (mkTideFrequency 0 2 1) (Scalar 5) =
  Ok (Scalar (2 * cos 1)).
Proof.
  apply (height_from_tide_steady (mkTideFrequency 0 2 1)). reflexivity.
Defined.

(** X4. Negating the amplitude is the same as shifting the phase by π,
    and shifting the phase by 2π changes nothing: the complex amplitudes
    coincide, and so do the heights at every time. *)
Theorem negative_amplitude_is_phase_shift (p a phi : R) (t : ndval R) :
  complex_amplitude (mkTideFrequency p (- a) phi) =
    complex_amplitude (mkTideFrequency p a (phi + PI)) /\
  complex_amplitude (mkTideFrequency p a (phi + 2 * PI)) =
    complex_amplitude (mkTideFrequency p a phi) /\
  height_from_tide (mkTideFrequency p (- a) phi) t =
    height_from_tide (mkTideFrequency p a (phi + PI)) t /\
  height_from_tide (mkTideFrequency p a (phi + 2 * PI)) t =
    height_from_tide (mkTideFrequency p a phi) t.
Proof.
  assert (E1 : complex_amplitude (mkTideFrequency p (- a) phi) =
               complex_amplitude (mkTideFrequency p a (phi + PI))).
  { rewrite !complex_amplitude_parts. simpl.
    rewrite neg_cos, neg_sin. f_equal; ring. }
  assert (E2 : complex_amplitude (mkTideFrequency p a (phi + 2 * PI)) =
               complex_amplitude (mkTideFrequency p a phi)).
  { rewrite !complex_amplitude_parts. simpl.
    rewrite cos_plus, sin_plus, cos_2PI, sin_2PI. f_equal; ring. }
  repeat split; try assumption.
  - unfold height_from_tide. now rewrite E1.
  - unfold height_from_tide. now rewrite E2.
Qed.

(** X5. The complex amplitude is the polar form of (amplitude, phase):
    its parts are amplitude · cos(phase) and amplitude · sin(phase), and
    its modulus is |amplitude|. *)
Theorem complex_amplitude_polar (tide : TideFrequency) :
  Re (complex_amplitude tide) = amplitude tide * cos (phase tide) /\
  Im (complex_amplitude tide) = amplitude tide * sin (phase tide) /\
  Cabs (complex_amplitude tide) = Rabs (amplitude tide).
Proof.
  rewrite Cabs_complex_amplitude, complex_amplitude_parts. simpl.
  repeat split.
Qed.

End TidalHeightLaws.

Section ChannelLaws.

Import Exact.
Local Open Scope R_scope.

Lemma three_pi_nonzero_R : 3 * PI <> 0.
Proof. pose proof PI_RGT_0. lra. Qed.

Lemma friction_factor_value (self : ChannelProperties) :
  height self <> 0 ->
  friction_factor self =
  Ok (drag_coefficient self / height self
      * (8 * tidal_velocity_amplitude self / (3 * PI))).
Proof.
  intros Hh. unfold friction_factor.
  rewrite (py_truediv_nonzero _ _ Hh).
  now rewrite (py_truediv_nonzero _ _ three_pi_nonzero_R).
Qed.

(** X6. [friction_factor] raises [ZeroDivisionError] at height 0.  At any
    other height it returns (c_d / h) · 8U / (3π): it is linear in the drag
    coefficient and in the tidal velocity amplitude, and inversely
    proportional to the height. *)
Theorem friction_factor_scaling (w h l q cd U dp k : R) :
  friction_factor (mkChannelProperties w 0 l q cd U dp) =
    Raise ZeroDivisionError /\
  (h <> 0 ->
   let r := cd / h * (8 * U / (3 * PI)) in
   friction_factor (mkChannelProperties w h l q cd U dp) = Ok r /\
   friction_factor (mkChannelProperties w h l q (k * cd) U dp) = Ok (k * r) /\
   friction_factor (mkChannelProperties w h l q cd (k * U) dp) = Ok (k * r) /\
   (k <> 0 ->
    friction_factor (mkChannelProperties w (k * h) l q cd U dp) = Ok (r / k))).
Proof.
  split.
  - unfold friction_factor. simpl. now rewrite py_truediv_zero.
  - intros Hh r. pose proof PI_neq0 as Hpi.
    repeat split.
    + now rewrite friction_factor_value.
    + rewrite friction_factor_value by exact Hh. simpl. f_equal.
      unfold r. field. split; assumption.
    + rewrite friction_factor_value by exact Hh. simpl. f_equal.
      unfold r. field. split; assumption.
    + intros Hk. rewrite friction_factor_value by (simpl; nra). simpl.
      f_equal. unfold r. field. repeat split; assumption.
Qed.

Lemma friction_factor_scaling_witness :
  friction_factor (mkChannelProperties 1 4 1 1 1 1 0.0125) =
  Ok (1 / 2 * (8 * 1 / (3 * PI)) / 2).
Proof.
  replace 4 with (2 * 2) by ring.
  apply (friction_factor_scaling 1 2 1 1 1 1 0.0125 2); lra.
Defined.

(** X7. For a positive drag coefficient and a non-zero height,
    [effective_diffusion_coefficient] grows with the square of the width,
    linearly with the prefactor and the tidal velocity amplitude, and
    falls inversely with the height and with the square root of the drag
    coefficient. *)
Theorem effective_diffusion_coefficient_scaling (w h l q cd U dp k : R) :
  0 < cd -> h <> 0 ->
  let D := effective_diffusion_coefficient
             (mkChannelProperties w h l q cd U dp) in
  D = dp * (w * w * U) / (sqrt cd * h) /\
  effective_diffusion_coefficient
    (mkChannelProperties (k * w) h l q cd U dp) = k * k * D /\
  effective_diffusion_coefficient
    (mkChannelProperties w h l q cd (k * U) dp) = k * D /\
  effective_diffusion_coefficient
    (mkChannelProperties w h l q cd U (k * dp)) = k * D /\
  (k <> 0 ->
   effective_diffusion_coefficient
     (mkChannelProperties w (k * h) l q cd U dp) = D / k) /\
  (0 < k ->
   effective_diffusion_coefficient
     (mkChannelProperties w h l q (k * cd) U dp) = D / sqrt k).
Proof.
  intros Hcd Hh D. unfold D, effective_diffusion_coefficient. simpl.
  assert (Hs : sqrt cd <> 0).
  { pose proof (sqrt_lt_R0 cd Hcd). lra. }
  repeat split.
  - field. split; assumption.
  - field. split; assumption.
  - field. split; assumption.
  - intros Hk. field. repeat split; assumption.
  - intros Hk. rewrite sqrt_mult by lra.
    assert (Hsk : sqrt k <> 0).
    { pose proof (sqrt_lt_R0 k Hk). lra. }
    field. repeat split; assumption.
Qed.

Lemma effective_diffusion_coefficient_scaling_witness :
  effective_diffusion_coefficient (mkChannelProperties (3 * 2) 1 1 1 1 1 0.0125) =
  3 * 3 * effective_diffusion_coefficient (mkChannelProperties 2 1 1 1 1 1 0.0125).
Proof.
  apply (effective_diffusion_coefficient_scaling 2 1 1 1 1 1 0.0125 3); lra.
Defined.

(** X8. Square-root law of the wave velocity: over non-negative heights,
    scaling the height by k >= 0 scales [frictionless_wave_velocity] by
    √k, and the velocity is zero only at height zero. *)
Theorem frictionless_wave_velocity_scaling (w h l q cd U dp k : R) :
  0 <= h -> 0 <= k ->
  frictionless_wave_velocity (mkChannelProperties w (k * h) l q cd U dp) =
    sqrt k * frictionless_wave_velocity (mkChannelProperties w h l q cd U dp) /\
  (frictionless_wave_velocity (mkChannelProperties w h l q cd U dp) = 0 <->
   h = 0).
Proof.
  intros Hh Hk. unfold frictionless_wave_velocity, g. simpl. split.
  - replace (9.81 * (k * h)) with (k * (9.81 * h)) by ring.
    apply sqrt_mult; lra.
  - split.
    + intros H0. apply sqrt_eq_0 in H0; lra.
    + intros ->. rewrite Rmult_0_r. apply sqrt_0.
Qed.

Lemma frictionless_wave_velocity_scaling_witness :
  frictionless_wave_velocity (mkChannelProperties 1 (4 * 1) 1 1 1 1 0.0125) =
  sqrt 4 * frictionless_wave_velocity (mkChannelProperties 1 1 1 1 1 1 0.0125).
Proof.
  apply (frictionless_wave_velocity_scaling 1 1 1 1 1 1 0.0125 4); lra.
Defined.



End ChannelLaws.

Section CachedProperties.

Import Exact.
Local Open Scope R_scope.

Lemma fresh_coherent (p a phi : R) : coherent (TideFrequency__init__ p a phi).
Proof. repeat split; intros v H; discriminate. Qed.

Lemma access_coherent (o : TideFrequency_instance) (n : cached_name) :
  coherent o -> coherent (access o n).
Proof.
  intros H. pose proof H as (Hc & Hw & Hf). destruct n; simpl.
  - unfold get_complex_amplitude.
    destruct (dict_complex_amplitude o) eqn:E; simpl; [exact H |].
    split; [| split]; simpl; try assumption.
    intros v Hv. now injection Hv as <-.
  - unfold get_angular_frequency.
    destruct (dict_angular_frequency o) eqn:E; simpl; [exact H |].
    destruct (angular_frequency (fields o)) eqn:B; simpl; [| exact H].
    split; [| split]; simpl; try assumption.
    intros v Hv. injection Hv as <-. exact B.
  - unfold get_frequency.
    destruct (dict_frequency o) eqn:E; simpl; [exact H |].
    destruct (frequency (fields o)) eqn:B; simpl; [| exact H].
    split; [| split]; simpl; try assumption.
    intros v Hv. injection Hv as <-. exact B.
Qed.

Lemma accesses_coherent (ns : list cached_name) (o : TideFrequency_instance) :
  coherent o -> coherent (fold_left access ns o).
Proof.
  revert o. induction ns as [| n ns IH]; intros o H; simpl.
  - exact H.
  - apply IH. now apply access_coherent.
Qed.

Lemma coherent_reads (o : TideFrequency_instance) :
  coherent o ->
  fst (get_complex_amplitude o) = complex_amplitude (fields o) /\
  fst (get_angular_frequency o) = angular_frequency (fields o) /\
  fst (get_frequency o) = frequency (fields o).
Proof.
  intros (Hc & Hw & Hf). repeat split.
  - unfold get_complex_amplitude.
    destruct (dict_complex_amplitude o) eqn:E; simpl; [now apply Hc | reflexivity].
  - unfold get_angular_frequency.
    destruct (dict_angular_frequency o) eqn:E; simpl.
    + symmetry. now apply Hw.
    + destruct (angular_frequency (fields o)); reflexivity.
  - unfold get_frequency.
    destruct (dict_frequency o) eqn:E; simpl.
    + symmetry. now apply Hf.
    + destruct (frequency (fields o)); reflexivity.
Qed.

Lemma access_idempotent (o : TideFrequency_instance) (n : cached_name) :
  access (access o n) n = access o n.
Proof.
  destruct n; simpl.
  - unfold get_complex_amplitude.
    destruct (dict_complex_amplitude o) eqn:E; simpl; now rewrite ?E.
  - unfold get_angular_frequency.
    destruct (dict_angular_frequency o) eqn:E; simpl; [now rewrite E |].
    destruct (angular_frequency (fields o)) eqn:B; simpl; now rewrite ?E, ?B.
  - unfold get_frequency.
    destruct (dict_frequency o) eqn:E; simpl; [now rewrite E |].
    destruct (frequency (fields o)) eqn:B; simpl; now rewrite ?E, ?B.
Qed.

(** X10. On an instance built by the constructor, after any sequence of
    reads of cached properties, every cached property still reads as the
    value its body computes from the fields, the fields are the
    constructor's arguments, and reading a property a second time changes
    nothing. *)
Theorem cached_properties_agree_with_bodies
    (p a phi : R) (ns : list cached_name) (n : cached_name) :
  fields (fold_left access ns (TideFrequency__init__ p a phi)) =
    mkTideFrequency p a phi /\
  fst (get_complex_amplitude
         (fold_left access ns (TideFrequency__init__ p a phi))) =
    complex_amplitude (mkTideFrequency p a phi) /\
  fst (get_angular_frequency
         (fold_left access ns (TideFrequency__init__ p a phi))) =
    angular_frequency (mkTideFrequency p a phi) /\
  fst (get_frequency
         (fold_left access ns (TideFrequency__init__ p a phi))) =
    frequency (mkTideFrequency p a phi) /\
  access (access (fold_left access ns (TideFrequency__init__ p a phi)) n) n =
    access (fold_left access ns (TideFrequency__init__ p a phi)) n.
Proof.
  set (o := fold_left access ns (TideFrequency__init__ p a phi)).
  assert (F : fields o = mkTideFrequency p a phi).
  { unfold o. now rewrite accesses_fields. }
  assert (C : coherent o).
  { unfold o. apply accesses_coherent, fresh_coherent. }
  destruct (coherent_reads o C) as (H1 & H2 & H3). rewrite F in H1, H2, H3.
  repeat split; try assumption. apply access_idempotent.
Qed.

End CachedProperties.

Section ArrayArgument.

Import Exact.
Local Open Scope R_scope.

Lemma np_arctan_into_views (z : list complex) :
  np_arctan_into (map Im z) (map Re z) = Ok (map atan (map Im z)).
Proof.
  unfold np_arctan_into. now rewrite !length_map, Nat.eqb_refl.
Qed.

Lemma np_multiply_map {A : Type} (f h : A -> R) (l : list A) :
  np_multiply (map f l) (map h l) = map (fun x => f x * h x) l.
Proof. induction l as [| x l IH]; simpl; now rewrite ?IH. Qed.

Lemma combine_map_self {A B : Type} (f : A -> B) (l : list A) :
  combine (map f l) l = map (fun x => (f x, x)) l.
Proof. induction l as [| x l IH]; simpl; now rewrite ?IH. Qed.

(** X11. With a one-dimensional complex array as argument,
    [from_complex_amplitude] returns: the amplitudes are
    sign(Re z) · |z| and the phases arctan(Im z), element by element, and
    the caller's array is modified, its real parts being overwritten with
    the phases.  The array is left as it was only if every element
    already had Re z = arctan(Im z). *)
Theorem from_complex_amplitude_ndarray_overwrites
    (z : list complex) (period : R) :
  exists (tf : TideFrequency_ndarray) (z' : list complex),
    from_complex_amplitude_ndarray z period = Ok (tf, z') /\
    nd_period_h tf = period /\
    nd_amplitude tf = map from_complex_amplitude_amplitude z /\
    nd_phase tf = map (fun c => atan (Im c)) z /\
    z' = map (fun c => mkC (atan (Im c)) (Im c)) z /\
    (z' = z <-> Forall (fun c => Re c = atan (Im c)) z).
Proof.
  unfold from_complex_amplitude_ndarray.
  rewrite np_arctan_into_views. simpl.
  eexists. eexists. split; [reflexivity |]. simpl.
  assert (Hz : map (fun rz : R * complex => mkC (fst rz) (Im (snd rz)))
                 (combine (map atan (map Im z)) z) =
               map (fun c => mkC (atan (Im c)) (Im c)) z).
  { rewrite map_map, (combine_map_self (fun c => atan (Im c))), map_map.
    reflexivity. }
  split; [reflexivity |]. split.
  { rewrite map_map. apply (np_multiply_map (fun c => np_sign (Re c)) Cabs). }
  split; [apply map_map |]. split; [exact Hz |].
  rewrite Hz. clear Hz. induction z as [| c z IH]; simpl.
  - split; [constructor | reflexivity].
  - split.
    + intros H. injection H as Hc Hr. constructor.
      * destruct c as [re im]. simpl in *. now injection Hc.
      * now apply IH.
    + intros H. inversion H as [| ? ? Hc Hr]; subst. f_equal.
      * destruct c as [re im]. simpl in *. now rewrite <- Hc.
      * now apply IH.
Qed.

End ArrayArgument.

(** * Further properties of the binary64 model *)

Section Binary64Signs.

Import Binary64.
Local Open Scope Z_scope.

Lemma shr_fexp_nonneg (m e : Z) (l : location) :
  0 <= m -> 0 <= shr_m (fst (shr_fexp prec emax m e l)).
Proof.
  intros Hm. unfold shr_fexp, shr.
  destruct (fexp prec emax (Zdigits2 m + e) - e) as [| p | p]; simpl fst;
    rewrite ?shr_record_of_loc_m; try exact Hm.
  rewrite iter_shr_1_m by (rewrite shr_record_of_loc_m; exact Hm).
  rewrite shr_record_of_loc_m. apply Z.shiftr_nonneg. exact Hm.
Qed.

Lemma binary_round_aux_sign (s : bool) (m e : Z) (l : location) :
  0 <= m -> sign_is s (binary_round_aux prec emax s m e l).
Proof.
  intros Hm. unfold binary_round_aux.
  pose proof (shr_fexp_nonneg m e l Hm) as H1.
  destruct (shr_fexp prec emax m e l) as [mrs1 e1]. simpl fst in H1.
  pose proof (round_nearest_even_bounds (shr_m mrs1) (loc_of_shr_record mrs1)) as Hr.
  set (m2 := round_nearest_even (shr_m mrs1) (loc_of_shr_record mrs1)) in *.
  pose proof (shr_fexp_nonneg m2 e1 loc_Exact ltac:(lia)) as H3.
  destruct (shr_fexp prec emax m2 e1 loc_Exact) as [mrs3 e3]. simpl fst in H3.
  destruct (shr_m mrs3) as [| m3 | m3]; try lia; [exact eq_refl |].
  destruct (e3 <=? emax - prec); exact eq_refl.
Qed.

Lemma sqrt_finite_sign (m : positive) (e : Z) :
  sign_is false (sqrt (S754_finite false m e)).
Proof.
  unfold sqrt, SFsqrt, SFsqrt_core_binary.
  set (m' := match _ - _ with Z0 => _ | Zpos _ => _ | Zneg _ => _ end).
  pose proof (Z.sqrtrem_sqrt m') as Hq.
  destruct (Z.sqrtrem m') as [q r]. simpl in Hq.
  apply binary_round_aux_sign. rewrite Hq. apply Z.sqrt_nonneg.
Qed.

Lemma div_finite_sign (sx : bool) (mx : positive) (ex : Z)
    (sy : bool) (my : positive) (ey : Z) :
  sign_is (xorb sx sy) (div (S754_finite sx mx ex) (S754_finite sy my ey)).
Proof.
  unfold div, SFdiv, SFdiv_core_binary.
  set (m' := match _ - _ - _ with Z0 => _ | Zpos _ => _ | Zneg _ => _ end).
  assert (Hm : 0 <= m').
  { unfold m'. destruct (_ - _ - _); try lia. apply Z.shiftl_nonneg. lia. }
  assert (Hq : 0 <= fst (Z.div_eucl m' (Zpos my))).
  { change (fst (Z.div_eucl m' (Zpos my))) with (m' / Zpos my).
    apply Z.div_pos; lia. }
  destruct (Z.div_eucl m' (Zpos my)) as [q r]. simpl in Hq.
  now apply binary_round_aux_sign.
Qed.

Lemma sign_false_facts (x : float) :
  sign_is false x -> is_nan x = false /\ ltb x (of_Z 0) = false.
Proof.
  destruct x as [s | s | | s m e]; simpl; try contradiction;
    intros ->; split; reflexivity.
Qed.

Lemma sqrt_never_negative (x : float) : ltb (sqrt x) (of_Z 0) = false.
Proof.
  destruct x as [s | [|] | | [|] m e]; try reflexivity.
  apply sign_false_facts, sqrt_finite_sign.
Qed.

(** X12. For a binary64 height, [frictionless_wave_velocity] is NaN
    exactly when the height is NaN or negative, and it is never
    negative. *)
Theorem frictionless_wave_velocity_nan (self : ChannelProperties) :
  valid (height self) = true ->
  is_nan (frictionless_wave_velocity self) =
    is_nan (height self) || ltb (height self) (of_Z 0) /\
  ltb (frictionless_wave_velocity self) (of_Z 0) = false.
Proof.
  intros Hv. split; [| apply sqrt_never_negative].
  unfold frictionless_wave_velocity, np_sqrt.
  destruct (height self) as [s | s | | s m e] eqn:Eh.
  - destruct s; reflexivity.
  - destruct s; reflexivity.
  - reflexivity.
  - pose proof (valid_finite_exponent s m e Hv) as He.
    change g with (S754_finite false 5522539043063071 (-49)).
    assert (D : Zdigits2 (Zpos 5522539043063071) = 53) by reflexivity.
    unfold py_mul.
    destruct (mul_finite_nonzero false 5522539043063071 (-49) s m e)
      as [Hi | (m' & e' & Hf & _)].
    + rewrite D. cbn [Zdigits2] in *. lia.
    + rewrite Hi. destruct s; reflexivity.
    + rewrite Hf. destruct s; [reflexivity |].
      cbn [xorb is_nan orb]. change (ltb (S754_finite false m e) (of_Z 0)) with false.
      apply sign_false_facts, sqrt_finite_sign.
Qed.

Lemma frictionless_wave_velocity_nan_witness :
  is_nan (frictionless_wave_velocity
            (mkChannelProperties (of_Z 1) (of_Z 2) (of_Z 1) (of_Z 1)
               (of_Z 1) (of_Z 1) (decimal 125 10000))) = false.
Proof.
  apply (frictionless_wave_velocity_nan
           (mkChannelProperties (of_Z 1) (of_Z 2) (of_Z 1) (of_Z 1)
              (of_Z 1) (of_Z 1) (decimal 125 10000))).
  reflexivity.
Defined.

Lemma two_pi_finite :
  exists m e, py_mul (of_Z 2) np_pi = S754_finite false m e.
Proof. eexists. eexists. reflexivity. Qed.

Lemma one_finite : exists m e, of_Z 1 = S754_finite false m e.
Proof. eexists. eexists. reflexivity. Qed.

(** The period in seconds keeps the sign of a non-zero period. *)
Lemma seconds_sign (s : bool) (p : float) :
  valid p = true -> is_zero p = false -> sign_is s p ->
  py_mul (py_mul p (of_Z 60)) (of_Z 60) = S754_infinity s \/
  exists m e, py_mul (py_mul p (of_Z 60)) (of_Z 60) = S754_finite s m e.
Proof.
  intros Hv Hz Hs. change (of_Z 60) with (S754_finite false 8444249301319680 (-47)).
  assert (D : Zdigits2 (Zpos 8444249301319680) = 53) by reflexivity.
  unfold py_mul.
  destruct p as [s' | s' | | s' m e]; try discriminate; try contradiction;
    simpl in Hs; subst s'.
  - left. cbn [mul SFmul]. now rewrite !xorb_false_r.
  - pose proof (valid_finite_exponent s m e Hv) as He.
    destruct (mul_finite_nonzero s m e false 8444249301319680 (-47))
      as [Hi | (m1 & e1 & Hf & Hm)].
    + rewrite D. cbn [Zdigits2] in *. lia.
    + rewrite Hi. left. cbn [mul SFmul]. now rewrite !xorb_false_r.
    + rewrite Hf, xorb_false_r.
      destruct (mul_finite_nonzero s m1 e1 false 8444249301319680 (-47))
        as [Hi | (m2 & e2 & Hf2 & _)].
      * rewrite D in *. cbn [Zdigits2] in *. lia.
      * left. now rewrite Hi, xorb_false_r.
      * right. exists m2, e2. now rewrite Hf2, xorb_false_r.
Qed.

Lemma quotient_sign (s : bool) (mx : positive) (ex : Z) (y : float) :
  (y = S754_infinity s \/ exists m e, y = S754_finite s m e) ->
  exists q, py_truediv (S754_finite false mx ex) y = Ok q /\ sign_is s q.
Proof.
  intros [-> | (m & e & ->)]; unfold py_truediv; cbn [is_zero]; eexists;
    (split; [reflexivity |]).
  - exact eq_refl.
  - apply (div_finite_sign false mx ex s m e).
Qed.

(** X13. For a binary64 period that is not NaN, [angular_frequency] and
    [frequency] return values that are not NaN: zero for a zero period of
    either sign, and otherwise values with the sign bit of the period (a
    negative period gives frequencies that are negative or -0). *)
Theorem frequencies_keep_sign (tide : TideFrequency) (s : bool) :
  valid (period_h tide) = true -> sign_is s (period_h tide) ->
  (is_zero (period_h tide) = true ->
     angular_frequency tide = Ok (of_Z 0) /\ frequency tide = Ok (of_Z 0)) /\
  (is_zero (period_h tide) = false ->
     exists omega f : float,
       angular_frequency tide = Ok omega /\ frequency tide = Ok f /\
       sign_is s omega /\ sign_is s f).
Proof.
  intros Hv Hs. unfold angular_frequency, frequency. rewrite eqb_zero.
  split; intros Hz; rewrite Hz; [split; reflexivity |].
  pose proof (seconds_sign s _ Hv Hz Hs) as Hsec.
  destruct two_pi_finite as (m2 & e2 & ->).
  destruct one_finite as (m1 & e1 & ->).
  destruct (quotient_sign s m2 e2 _ Hsec) as (omega & Hw & Sw).
  destruct (quotient_sign s m1 e1 _ Hsec) as (f & Hf & Sf).
  exists omega, f. repeat split; assumption.
Qed.

Lemma frequencies_keep_sign_witness :
  exists omega f : float,
    angular_frequency (mkTideFrequency (of_Z (-12)) (of_Z 1) (of_Z 0)) = Ok omega /\
    frequency (mkTideFrequency (of_Z (-12)) (of_Z 1) (of_Z 0)) = Ok f /\
    sign_is true omega /\ sign_is true f.
Proof.
  apply (frequencies_keep_sign
           (mkTideFrequency (of_Z (-12)) (of_Z 1) (of_Z 0)) true);
    reflexivity.
Defined.

Lemma SFcompare_some (x y : float) :
  is_nan x = false -> is_nan y = false -> exists c, SFcompare x y = Some c.
Proof.
  destruct x as [sx | sx | | sx mx ex], y as [sy | sy | | sy my ey];
    try discriminate; intros _ _; simpl; eexists; reflexivity.
Qed.

Lemma not_ltb_leb (x y : float) :
  is_nan x = false -> is_nan y = false -> ltb x y = false -> leb y x = true.
Proof.
  intros Hx Hy. unfold ltb, leb, SFltb, SFleb.
  rewrite (SFcompare_antisym x y).
  destruct (SFcompare_some x y Hx Hy) as [c ->].
  destruct c; simpl; congruence.
Qed.

Lemma compare_nan (x y : float) :
  is_nan x = true -> ltb x y = false /\ ltb y x = false /\ leb x y = false.
Proof.
  destruct x; try discriminate. intros _.
  destruct y; repeat split; reflexivity.
Qed.

(** X14. On binary64 values the constructor accepts a given
    [diffusion_prefactor] exactly when it lies in [0.005, 0.020] or is
    NaN: NaN passes both comparisons of the range check. *)
Theorem accepted_prefactors (w h l q cd U dp : float) :
  returns (ChannelProperties__init__ w h l q cd U (Some dp)) <->
  (leb (decimal 5 1000) dp = true /\ leb dp (decimal 20 1000) = true) \/
  is_nan dp = true.
Proof.
  unfold returns, ChannelProperties__init__. split.
  - intros [self H].
    destruct (is_nan dp) eqn:N; [now right | left].
    destruct (ltb dp (decimal 5 1000)) eqn:L1; [discriminate |].
    destruct (ltb (decimal 20 1000) dp) eqn:L2; [discriminate |].
    split; apply not_ltb_leb; auto.
  - intros [[Hlo Hhi] | N].
    + rewrite (leb_not_ltb _ _ Hlo), (leb_not_ltb _ _ Hhi). now eexists.
    + destruct (compare_nan dp (decimal 5 1000) N) as (-> & _ & _).
      destruct (compare_nan dp (decimal 20 1000) N) as (_ & -> & _).
      now eexists.
Qed.

End Binary64Signs.

Section DerivedAmplitude.

Import Exact.
Local Open Scope R_scope.

Lemma Cabs_nonneg (z : complex) : 0 <= Cabs z.
Proof. unfold Cabs. apply sqrt_pos. Qed.

(** X15. The amplitude that [from_complex_amplitude] derives from z is
    |z| when Re z > 0, -|z| when Re z < 0, and 0 when Re z = 0, however
    large the imaginary part: its magnitude is |z| unless z is purely
    imaginary. *)
Theorem derived_amplitude_sign (z : complex) :
  (0 < Re z -> from_complex_amplitude_amplitude z = Cabs z) /\
  (Re z < 0 -> from_complex_amplitude_amplitude z = - Cabs z) /\
  (Re z = 0 -> from_complex_amplitude_amplitude z = 0) /\
  (Re z <> 0 -> Rabs (from_complex_amplitude_amplitude z) = Cabs z).
Proof.
  unfold from_complex_amplitude_amplitude.
  pose proof (Cabs_nonneg z) as Hz.
  split; [| split; [| split]].
  - intros H. rewrite np_sign_pos by exact H. ring.
  - intros H. rewrite np_sign_neg by exact H. ring.
  - intros H. rewrite H, np_sign_zero. ring.
  - intros H. destruct (Rtotal_order (Re z) 0) as [Hn | [H0 | Hp]].
    + rewrite np_sign_neg by exact Hn.
      replace (-1 * Cabs z) with (- Cabs z) by ring.
      rewrite Rabs_Ropp. now apply Rabs_right, Rle_ge.
    + contradiction.
    + rewrite np_sign_pos by exact Hp. rewrite Rmult_1_l.
      now apply Rabs_right, Rle_ge.
Qed.

Lemma derived_amplitude_sign_witness :
  from_complex_amplitude_amplitude (mkC 0 5) = 0.
Proof.
  apply (derived_amplitude_sign (mkC 0 5)). reflexivity.
Defined.

End DerivedAmplitude.
